(** * ArmLengthSimulation: a shallow embedding of [src/index.ts]

    The program enumerates the ways of splitting a total length into
    segments, builds an [Arm] for each ordering and ranks the arms by the
    torque they exert at their base.

    Two kinds of JavaScript [number] appear in the source:
    - array indices, lengths and the integers handled by the partition
      search; they are modelled by [nat] and [Z].  The doubles of the
      source are exact on integers up to [2^53] in magnitude, which covers
      the run; [withinDoubles] names the inputs on which every number the
      search computes stays in that range;
    - physical quantities (masses, lengths, torques); the physical model is
      written once over an interface [Number] and read at two instances:
      IEEE 754 binary64 ([float], what the engine computes) and the real
      numbers ([R], exact arithmetic). *)

From Stdlib Require Import ZArith QArith List Bool Lia Permutation Sorted.
From Stdlib Require String Ascii DecimalString.
From Stdlib Require Import Floats.
From Stdlib Require Import Reals Lra.
Import ListNotations.

Set Implicit Arguments.
Set Warnings "-inexact-float".

(* ================================================================== *)
(** ** JavaScript array helpers *)
(* ================================================================== *)

Section ArrayHelpers.

Variables A B St : Type.

(** [for (let x of l) body], with a body that may fail to return. *)
Fixpoint forEachM (l : list A) (s : St) (body : A -> St -> option St) : option St :=
  match l with
  | [] => Some s
  | x :: l' =>
      match body x s with
      | Some s' => forEachM l' s' body
      | None => None
      end
  end.

(** [l.reduce((acc, x, index) => f acc x index, init)], the index counted
    from [i]. *)
Fixpoint reduceFrom (f : B -> A -> nat -> B) (i : nat) (l : list A) (init : B) : B :=
  match l with
  | [] => init
  | x :: l' => reduceFrom f (S i) l' (f init x i)
  end.

Definition reduce (f : B -> A -> nat -> B) (l : list A) (init : B) : B :=
  reduceFrom f 0 l init.

(** [Array.prototype.sort]: the sort is stable, so for a consistent
    comparator its result is the one of a stable insertion sort.
    [after y x] says that the comparator puts [y] after [x]
    (it returned a positive number on [(y, x)]). *)
Fixpoint insertBy (after : A -> A -> bool) (x : A) (l : list A) : list A :=
  match l with
  | [] => [x]
  | y :: l' => if after y x then x :: y :: l' else y :: insertBy after x l'
  end.

Definition sortBy (after : A -> A -> bool) (l : list A) : list A :=
  fold_left (fun sorted x => insertBy after x sorted) l [].

(** [l.find(p)] for a predicate that may throw: [None] when it throws
    before a member is found, [Some None] for [undefined]. *)
Fixpoint findE (p : A -> option bool) (l : list A) : option (option A) :=
  match l with
  | [] => Some None
  | x :: l' =>
      match p x with
      | Some true => Some (Some x)
      | Some false => findE p l'
      | None => None
      end
  end.

(** A step on the value of an earlier one that returned. *)
Definition andThen (o : option A) (f : A -> option B) : option B :=
  match o with
  | Some x => f x
  | None => None
  end.

End ArrayHelpers.

Local Open Scope Z_scope.

(** [range(start, end)]: [[...Array(end - start)].map((_, i) => i + start)],
    for [start <= end].  On a negative size [Array] throws a RangeError in
    the source; no call of the program asks for one, and what is proved of
    [range] is proved for [start <= end]. *)
Definition range (start end_ : Z) : list Z :=
  map (fun index => Z.of_nat index + start) (seq 0 (Z.to_nat (end_ - start))).

Definition irange (start end_ : Z) : list Z := range start (end_ + 1).

(** [[...new Set(input)]]: the distinct members in order of first occurrence. *)
Fixpoint setFrom (seen input : list Z) : list Z :=
  match input with
  | [] => []
  | x :: input' =>
      if existsb (Z.eqb x) seen then setFrom seen input'
      else x :: setFrom (x :: seen) input'
  end.

Definition newSet (input : list Z) : list Z := setFrom [] input.

(** [String(n)] for an integer below [10^21] in magnitude (from there on
    the source writes an exponent). *)
Definition toString (n : Z) : String.string :=
  DecimalString.NilZero.string_of_int (Z.to_int n).

(** [.sort()] with no comparator: elements are compared as strings. *)
Definition defaultAfter (y x : Z) : bool := String.ltb (toString x) (toString y).

Definition defaultSort (l : list Z) : list Z := sortBy defaultAfter l.

(** [l.indexOf(x)], [-1] when absent. *)
Fixpoint indexOfFrom (x : Z) (l : list Z) (i : Z) : Z :=
  match l with
  | [] => -1
  | y :: l' => if y =? x then i else indexOfFrom x l' (i + 1)
  end.

Definition indexOf (x : Z) (l : list Z) : Z := indexOfFrom x l 0.

(** The array after [l.splice(start, deleteCount)]. *)
Definition splice (l : list Z) (start deleteCount : Z) : list Z :=
  let len := Z.of_nat (length l) in
  let s := if start <? 0 then Z.max (len + start) 0 else Z.min start len in
  let c := Z.min (Z.max deleteCount 0) (len - s) in
  firstn (Z.to_nat s) l ++ skipn (Z.to_nat (s + c)) l.

(* ================================================================== *)
(** ** The partition generator *)
(* ================================================================== *)

(** The two arrays [findNumbers] mutates: the results recorded so far and
    the partial sequence. *)
Record SearchState : Type := { acc : list (list Z); temp : list Z }.

Definition record (st : SearchState) : SearchState :=
  {| acc := acc st ++ [temp st]; temp := temp st |}.

Definition push (x : Z) (st : SearchState) : SearchState :=
  {| acc := acc st; temp := temp st ++ [x] |}.

(** [const idx = temp.indexOf(x); temp.splice(idx, idx !== -1 ? 1 : 0)] *)
Definition backtrack (x : Z) (st : SearchState) : SearchState :=
  let idx := indexOf x (temp st) in
  {| acc := acc st; temp := splice (temp st) idx (if idx =? -1 then 0 else 1) |}.

(** [input[i]]: [undefined] ([None]) outside the array. *)
Definition elementAt (input : list Z) (i : Z) : option Z :=
  if i <? 0 then None else nth_error input (Z.to_nat i).

(** [findNumbers(acc, input, sum, index, temp)].  [fuel] bounds the depth
    of the recursion: [None] stands for a search that does not return
    within that depth.  On [undefined] the test [sum - input[i] >= 0] is
    false. *)
Fixpoint findNumbers (fuel : nat) (input : list Z) (sum index : Z)
    (st : SearchState) : option SearchState :=
  match fuel with
  | O => None
  | S fuel' =>
      if sum =? 0 then Some (record st)
      else
        forEachM (range index (Z.of_nat (length input))) st
          (fun i st =>
             match elementAt input i with
             | Some x =>
                 if sum - x >=? 0 then
                   match findNumbers fuel' input (sum - x) i (push x st) with
                   | Some st' => Some (backtrack x st')
                   | None => None
                   end
                 else Some st
             | None => Some st
             end)
  end.

Definition findAllCombinations (fuel : nat) (input : list Z) (sum maxLength : Z)
    : option (list (list Z)) :=
  let input := defaultSort (newSet input) in
  match findNumbers fuel input sum 0 {| acc := []; temp := [] |} with
  | Some st =>
      Some (filter (fun combo => Z.of_nat (length combo) =? maxLength) (acc st))
  | None => None
  end.

(* ================================================================== *)
(** ** Numbers *)
(* ================================================================== *)

(** The operations the physical model uses on a JavaScript [number]. *)
Class Number (num : Type) : Type := {
  lit : Q -> num;                  (* a numeric literal of the source *)
  Math_PI : num;
  Math_abs : num -> num;
  add : num -> num -> num;
  sub : num -> num -> num;
  mul : num -> num -> num;
  div : num -> num -> num;
  ltb : num -> num -> bool;        (* [<] *)
  eqb : num -> num -> bool         (* [===] *)
}.

Arguments lit {num _} _%_Q.

Declare Scope js_scope.
Delimit Scope js_scope with js.
Notation "x + y" := (add x y) : js_scope.
Notation "x - y" := (sub x y) : js_scope.
Notation "x * y" := (mul x y) : js_scope.
Notation "x / y" := (div x y) : js_scope.

Definition ofZ {num : Type} {N : Number num} (z : Z) : num := lit (inject_Z z).

(** IEEE 754 binary64, the [number] of the engine.  A decimal literal
    denotes the double nearest to it, which is the correctly rounded
    quotient of its numerator and denominator (both are exact doubles for
    the literals of the source). *)
Definition float_ofZ (z : Z) : float :=
  match z with
  | Z0 => PrimFloat.zero
  | Zpos _ => PrimFloat.of_uint63 (Uint63.of_Z z)
  | Zneg p => PrimFloat.opp (PrimFloat.of_uint63 (Uint63.of_Z (Zpos p)))
  end.

#[export] Instance float_Number : Number float := {
  lit q := PrimFloat.div (float_ofZ (Qnum q)) (float_ofZ (Zpos (Qden q)));
  Math_PI := 0x1.921fb54442d18p+1%float;
  Math_abs := PrimFloat.abs;
  add := PrimFloat.add;
  sub := PrimFloat.sub;
  mul := PrimFloat.mul;
  div := PrimFloat.div;
  ltb := PrimFloat.ltb;
  eqb := PrimFloat.eqb
}.

(** Exact arithmetic on the real numbers. *)
#[export] Instance R_Number : Number R := {
  lit := Q2R;
  Math_PI := PI;
  Math_abs := Rabs;
  add := Rplus;
  sub := Rminus;
  mul := Rmult;
  div := Rdiv;
  ltb x y := if Rlt_dec x y then true else false;
  eqb x y := if Req_dec_T x y then true else false
}.

(* ================================================================== *)
(** ** The physical model *)
(* ================================================================== *)

Section PhysicalModel.

Context {num : Type} {N : Number num}.
Local Open Scope js_scope.

(** [abstract class Massive] *)
Class Massive (T : Type) : Type := {
  getMass : T -> num;
  getLength : T -> num;
  getCenterOfMass : T -> num
}.

Definition getTorqueAtBase {T : Type} {M : Massive T} (this : T) : num :=
  getCenterOfMass this * getMass this.

(** [class Segment]: its fields [length] and [materialMass]. *)
Record Segment : Type := {
  Segment_length : num;
  Segment_materialMass : num
}.

(** [Segment.constructor] *)
Definition newSegment (length : num) : Segment :=
  (* Material Constants *)
  let SEGMENT_WIDTH := lit 6 in
  let MATERIAL_THICKNESS := lit 0.23622 in
  let MATERIAL_DENSITY := lit 0.0975437 in
  let HOLE_AREA := lit 3.9 + lit 1.1 in
  let ROUND_AREA :=
    SEGMENT_WIDTH * SEGMENT_WIDTH
    - Math_PI * ((SEGMENT_WIDTH / lit 2) * (SEGMENT_WIDTH / lit 2)) (* [** 2] *) in
  let TOTAL_NEGATIVE_AREA := HOLE_AREA + ROUND_AREA in
  let BEARING_EDGE_DISTANCE := lit 3 in
  let WEIGHT_REDUCTION_RATIO := lit 0.4 in
  (* Compute Material Mass *)
  let lengthWithEdges := length + lit 2 * BEARING_EDGE_DISTANCE in
  let segmentArea := lengthWithEdges * SEGMENT_WIDTH - TOTAL_NEGATIVE_AREA in
  let segmentVolume := segmentArea * MATERIAL_THICKNESS in
  let segmentMass := segmentVolume * MATERIAL_DENSITY * WEIGHT_REDUCTION_RATIO in
  {| Segment_length := length; Segment_materialMass := segmentMass * lit 2 |}.

Definition Segment_getMass (this : Segment) : num :=
  let CAN_SPARK_MAX := lit 0.25 in
  let NEO_MOTOR_MASS := lit 0.938 in
  let GEARBOX_BASE_KIT_MASS := lit 0.576 in
  let GEARBOX_5_STAGE_MASS := lit 0.303 in
  let CHAIN_SPROCKET_MASS := lit 0.5 in
  Segment_materialMass this
  + CAN_SPARK_MAX
  + NEO_MOTOR_MASS
  + GEARBOX_BASE_KIT_MASS
  + GEARBOX_5_STAGE_MASS * lit 3
  + CHAIN_SPROCKET_MASS.

Definition Segment_getLength (this : Segment) : num := Segment_length this.

Definition Segment_getCenterOfMass (this : Segment) : num :=
  let MASS_OFFSET := lit 5 in
  Segment_length this - MASS_OFFSET.

#[export] Instance Segment_Massive : Massive Segment := {
  getMass := Segment_getMass;
  getLength := Segment_getLength;
  getCenterOfMass := Segment_getCenterOfMass
}.

(** [class Grabber]: it has no field. *)
Inductive Grabber : Type := newGrabber.

#[export] Instance Grabber_Massive : Massive Grabber := {
  getMass _ := lit 7.5;
  getLength _ := lit 12;
  getCenterOfMass _ := lit 4
}.

(** A member of [components: Massive[]]: the constructor of [Arm] pushes
    segments and a grabber; a method call dispatches on the class. *)
Inductive Component : Type :=
  | ASegment (s : Segment)
  | AGrabber (g : Grabber).

#[export] Instance Component_Massive : Massive Component := {
  getMass c := match c with ASegment s => getMass s | AGrabber g => getMass g end;
  getLength c := match c with ASegment s => getLength s | AGrabber g => getLength g end;
  getCenterOfMass c :=
    match c with ASegment s => getCenterOfMass s | AGrabber g => getCenterOfMass g end
}.

(** [class Arm] *)
Record Arm : Type := { components : list Component }.

(** [Arm.constructor(...segmentLengths)] *)
Definition newArm (segmentLengths : list num) : Arm :=
  let components :=
    fold_left (fun components len => components ++ [ASegment (newSegment len)])
      segmentLengths [] in
  {| components := components ++ [AGrabber newGrabber] |}.

Definition Arm_getMass (this : Arm) : num :=
  reduce (fun acc component _ => acc + getMass component) (components this) (lit 0).

Definition Arm_getLength (this : Arm) : num :=
  reduce (fun acc component _ => acc + getLength component) (components this) (lit 0).

(** [this.components[index].getLength()]: the index is always that of an
    earlier component (lemma [lengthAt_firstn] reads the calls), so the
    other branch is not reached. *)
Definition lengthAt (this : Arm) (index : nat) : num :=
  match nth_error (components this) index with
  | Some component => getLength component
  | None => lit 0
  end.

(** The [dn] values of [Arm.getCenterOfMass]. *)
Definition distances (this : Arm) : list num :=
  reduce
    (fun (acc : list num) component index =>
       let lengthOfPreviousComponents :=
         if Nat.eqb index 0 then lit 0
         else reduce (fun length _ index => length + lengthAt this index) acc (lit 0) in
       acc ++ [lengthOfPreviousComponents + getCenterOfMass component])
    (components this) [].

Definition Arm_getCenterOfMass (this : Arm) : num :=
  (* Accumulate all the dn values *)
  let d := distances this in
  (* Accumulate weighted sums; [d[index]] is always defined *)
  let numerator :=
    reduce
      (fun weightedMass component index =>
         weightedMass + getMass component * nth index d (lit 0))
      (components this) (lit 0) in
  (* Accumulate the sum of all masses *)
  let denominator :=
    reduce (fun mass component _ => mass + getMass component) (components this) (lit 0) in
  numerator / denominator.

#[export] Instance Arm_Massive : Massive Arm := {
  getMass := Arm_getMass;
  getLength := Arm_getLength;
  getCenterOfMass := Arm_getCenterOfMass
}.

Definition percentDifference (v1 v2 : num) : num :=
  (Math_abs (v1 - v2) / ((v1 + v2) / lit 2)) * lit 100.

(* ---------------------------------------------------------------- *)
(** *** The aggregates, as sums *)

(** A sum taken as the source takes it: from 0, left to right. *)
Definition total (l : list num) : num := fold_left add l (lit 0).

(** The summed lengths of the components before the one at [i]. *)
Definition cumulativeLength (this : Arm) (i : nat) : num :=
  total (map getLength (firstn i (components this))).

(** The components with their indices. *)
Definition indexed (this : Arm) : list (nat * Component) :=
  combine (seq 0 (List.length (components this))) (components this).

(** The distance from the base of the arm to the centre of mass of the
    component [snd ic], which is at index [fst ic]. *)
Definition position (this : Arm) (ic : nat * Component) : num :=
  cumulativeLength this (fst ic) + getCenterOfMass (snd ic).

Definition weightedPositions (this : Arm) : num :=
  total (map (fun ic => getMass (snd ic) * position this ic) (indexed this)).

Definition mulCommutes : Prop := forall x y : num, x * y = y * x.

(** The mass of a segment of length [L] as the specification words it:
    the material of two plates and the masses of the motor, the gearbox
    base, three gearbox stages and the sprocket. *)
Definition specMaterialMass (L : num) : num :=
  let edgeAllowance := lit 3 in
  let width := lit 6 in
  let holeArea := lit 3.9 + lit 1.1 in
  let roundedCornerLoss :=
    width * width - Math_PI * ((width / lit 2) * (width / lit 2)) in
  let thickness := lit 0.23622 in
  let density := lit 0.0975437 in
  let reductionRatio := lit 0.4 in
  ((L + lit 2 * edgeAllowance) * width - (holeArea + roundedCornerLoss))
  * thickness * density * reductionRatio * lit 2.

Definition specSegmentMass (L : num) : num :=
  let motorMass := lit 0.938 in
  let gearboxBaseMass := lit 0.576 in
  let gearboxStageMass := lit 0.303 in
  let sprocketMass := lit 0.5 in
  specMaterialMass L + motorMass + gearboxBaseMass + lit 3 * gearboxStageMass
  + sprocketMass.

(* ---------------------------------------------------------------- *)
(** *** The run *)

Definition SEGMENTS : Z := 3.
Definition TOTAL_LENGTH : Z := 72.
Definition MIN_LENGTH : Z := 12.

(** The depth given to the search of the run; a positive member of the
    domain takes at least one unit of the sum at each level. *)
Definition runDepth : nat := S (Z.to_nat TOTAL_LENGTH).

Definition possibleArmLengths : option (list (list Z)) :=
  findAllCombinations runDepth
    (irange MIN_LENGTH (TOTAL_LENGTH - MIN_LENGTH * (SEGMENTS - 1)))
    TOTAL_LENGTH SEGMENTS.

(** [Permutations.permutation] of the package [array-permutation]: the
    orderings of an array. *)
Variable permutation : list Z -> list (list Z).

Definition possibleArmLengthPermutations : option (list (list Z)) :=
  option_map (flat_map permutation) possibleArmLengths.

Definition filteredArmLengthPermutations : option (list (list Z)) :=
  option_map (filter (fun armConfig => true)) possibleArmLengthPermutations.

(** [arms] before the sort. *)
Definition generatedArms : option (list Arm) :=
  option_map (map (fun armConfig => newArm (map ofZ armConfig)))
    filteredArmLengthPermutations.

(** The comparator [(a, b) => a.getTorqueAtBase() - b.getTorqueAtBase()]
    puts [b] after [a] when it is positive on [(b, a)]. *)
Definition torqueAfter (b a : Arm) : bool :=
  ltb (lit 0) (getTorqueAtBase b - getTorqueAtBase a).

Definition sortArms (arms : list Arm) : list Arm := sortBy torqueAfter arms.

(** [arms] after [arms.sort(...)]. *)
Definition arms : option (list Arm) := option_map sortArms generatedArms.

(** [arms[0]] and [arms[arms.length - 1]] ([None]: [undefined]). *)
Definition first (arms : list Arm) : option Arm := nth_error arms 0.

Definition final (arms : list Arm) : option Arm :=
  match arms with
  | [] => None
  | _ :: _ => nth_error arms (List.length arms - 1)
  end.

Definition bestArm : option Arm := andThen arms first.

Definition worstArm : option Arm := andThen arms final.

(** The predicate of the last [arms.find]:
    [components[0].getLength() === components[1].getLength() &&
     components[1].getLength() === components[2].getLength()].
    [getLength] of a component that does not exist throws a TypeError
    ([None]); [&&] reads the third component only when the first two
    lengths are equal. *)
Definition symmetric (arm : Arm) : option bool :=
  match components arm with
  | c0 :: c1 :: rest =>
      if eqb (getLength c0) (getLength c1) then
        match rest with
        | c2 :: _ => Some (eqb (getLength c1) (getLength c2))
        | [] => None
        end
      else Some false
  | _ => None
  end.

(** The value of the last [arms.find]: [Some None] is [undefined], no arm
    found; [None] stands for a run that does not get to a value. *)
Definition symmetricArm : option (option Arm) := andThen arms (findE symmetric).

End PhysicalModel.

Arguments Segment num : clear implicits.
Arguments Component num : clear implicits.
Arguments Arm num : clear implicits.

(** A generator with the contract of [Permutations.permutation]: every
    ordering of the array, by inserting the head at each place of each
    ordering of the tail. *)
Fixpoint insertions (x : Z) (l : list Z) : list (list Z) :=
  match l with
  | [] => [[x]]
  | y :: l' => (x :: y :: l') :: map (cons y) (insertions x l')
  end.

Fixpoint orderings (l : list Z) : list (list Z) :=
  match l with
  | [] => [[]]
  | x :: l' => flat_map (insertions x) (orderings l')
  end.

(** The contract asked of the permutation generator: it yields every
    ordering of its argument. *)
Definition yieldsEveryOrdering (permutation : list Z -> list (list Z)) : Prop :=
  forall l p, Permutation p l -> In p (permutation l).

(** *** Exact arithmetic *)

Definition sumR (l : list R) : R := fold_right Rplus 0%R l.

(** A component of positive mass whose centre of mass lies before its end. *)
Definition wellPlaced (c : Component R) : Prop :=
  (0 < getMass c /\ 0 <= getLength c /\ getCenterOfMass c < getLength c)%R.

Definition torque (a : Arm R) : R := getTorqueAtBase a.

(** The order of the ranking. *)
Definition torqueLe (a b : Arm R) : Prop := (torque a <= torque b)%R.

(** ** The search as a function of its arguments

    [enum fuel input sum index] lists, in the order [findNumbers] records
    them, the sequences by which a call extends its partial sequence. *)
Fixpoint enum (fuel : nat) (input : list Z) (sum : Z) (index : nat) : list (list Z) :=
  match fuel with
  | O => []
  | S fuel' =>
      if sum =? 0 then [[]]
      else
        flat_map
          (fun i =>
             match nth_error input i with
             | Some x =>
                 if sum - x >=? 0 then map (cons x) (enum fuel' input (sum - x) i)
                 else []
             | None => []
             end)
          (seq index (List.length input - index))
  end.

(** [l] without the first occurrence of [x]. *)
Fixpoint removeFirst (x : Z) (l : list Z) : list Z :=
  match l with
  | [] => []
  | y :: l' => if y =? x then l' else y :: removeFirst x l'
  end.

Definition sumZ (l : list Z) : Z := fold_right Z.add 0 l.

(** The member of [input] at position [j]. *)
Definition at_ (input : list Z) (j : nat) : Z := nth j input 0.

(** The partial sequence of a call at cursor [index]: members of [input]
    at positions that never decrease and do not pass the cursor. *)
Definition cursorInv (input : list Z) (index : nat) (temp : list Z) : Prop :=
  exists idxs,
    temp = map (at_ input) idxs /\
    StronglySorted le idxs /\
    Forall (fun j => (j <= index)%nat /\ (j < List.length input)%nat) idxs.

(** The order of positions in the domain, as an [after]: it arranges a
    choice of members the way the search takes them. *)
Definition natAfter (y x : nat) : bool := (x <? y)%nat.

(** The other half of the contract of the permutation generator: it
    yields orderings of its argument only. *)
Definition yieldsOnlyOrderings (permutation : list Z -> list (list Z)) : Prop :=
  forall l p, In p (permutation l) -> Permutation p l.

(** ** Where the integers of the model are the doubles of the source

    Inputs on which the search computes on doubles what it computes on
    integers: the members of the domain are positive and, like the target,
    at most [2^53] in magnitude.  The search then only forms differences
    [sum - input[i]] of a sum in [0, 2^53] and a member, which are integers
    of that range again. *)
Definition withinDoubles (input : list Z) (sum : Z) : Prop :=
  Forall (fun x => 0 < x <= 2 ^ 53) input /\ - 2 ^ 53 <= sum <= 2 ^ 53.

(** ** Arms of integer segment lengths, on doubles *)

(** [new Arm(...armConfig)] *)
Definition armOf (armConfig : list Z) : Arm float := newArm (map ofZ armConfig).

(** [P a b c] at all integers [a], [b] and [c] from [lo] to [hi]. *)
Definition grid3 (lo hi : Z) (P : Z -> Z -> Z -> bool) : bool :=
  forallb (fun a =>
    forallb (fun b =>
      forallb (fun c => P a b c) (irange lo hi)) (irange lo hi)) (irange lo hi).


(** The configurations of the run: three lengths that add up to the total. *)
Definition ofRun (P : Z -> Z -> Z -> bool) (a b c : Z) : bool :=
  if a + b + c =? TOTAL_LENGTH then P a b c else true.

(** A segment one inch longer gives more torque at the base. *)
Definition longerHeavier (a b c : Z) : bool :=
  let t := getTorqueAtBase (armOf [a; b; c]) in
  ltb t (getTorqueAtBase (armOf [a + 1; b; c]))
  && ltb t (getTorqueAtBase (armOf [a; b + 1; c]))
  && ltb t (getTorqueAtBase (armOf [a; b; c + 1])).

(** Of two neighbouring segments, the shorter one nearer the base gives
    less torque. *)
Definition shorterFirst (a b c : Z) : bool :=
  let t := getTorqueAtBase (armOf [a; b; c]) in
  (if a <? b then ltb t (getTorqueAtBase (armOf [b; a; c])) else true)
  && (if b <? c then ltb t (getTorqueAtBase (armOf [a; c; b])) else true).

(** Four components, the length 84 and a mass that differs from
    26.26931327743038 by rounding alone. *)
Definition uniform (this : Arm float) : bool :=
  (List.length (components this) =? 4)%nat
  && eqb (getLength this) (lit 84)
  && ltb (lit 26.2693132774303) (getMass this)
  && ltb (getMass this) (lit 26.2693132774304).

(** The lookup does not throw, and takes no other arm than the one of
    three equal lengths. *)
Definition symmetricOnlyEqual (a b c : Z) : bool :=
  match symmetric (armOf [a; b; c]) with
  | Some true => (a =? b) && (b =? c)
  | Some false => true
  | None => false
  end.

(* ================================================================== *)
(** ** Lemmas on the array helpers *)
(* ================================================================== *)

Lemma range_of_nat (a b : nat) :
  range (Z.of_nat a) (Z.of_nat b) = map Z.of_nat (seq a (b - a)).
Proof.
  unfold range.
  replace (Z.to_nat (Z.of_nat b - Z.of_nat a)) with (b - a)%nat by lia.
  generalize (b - a)%nat as n. intro n.
  change a with (0 + a)%nat at 2.
  generalize 0%nat as s.
  induction n as [|n IH]; intro s; simpl; [reflexivity|].
  f_equal; [lia|]. apply (IH (S s)).
Qed.

Lemma indexOfFrom_spec (x : Z) (l : list Z) (i : Z) :
  0 <= i ->
  (indexOfFrom x l i = -1 /\ removeFirst x l = l) \/
  (exists k, indexOfFrom x l i = i + Z.of_nat k /\ (k < List.length l)%nat /\
             removeFirst x l = firstn k l ++ skipn (S k) l).
Proof.
  revert i. induction l as [|y l IH]; intros i Hi; simpl.
  - left. split; reflexivity.
  - destruct (y =? x) eqn:E.
    + right. exists 0%nat. simpl. repeat split; lia.
    + destruct (IH (i + 1) ltac:(lia)) as [[H1 H2]|[k [H1 [H2 H3]]]].
      * left. rewrite H2. split; [assumption|reflexivity].
      * right. exists (S k). rewrite H1, H3. simpl. repeat split; lia.
Qed.

Lemma splice_indexOf (x : Z) (l : list Z) :
  splice l (indexOf x l) (if indexOf x l =? -1 then 0 else 1) = removeFirst x l.
Proof.
  unfold indexOf, splice.
  destruct (indexOfFrom_spec x l (i:=0) ltac:(lia)) as [[H1 H2]|[k [H1 [H2 H3]]]].
  - rewrite H1, H2. change (-1 <? 0) with true. change (-1 =? -1) with true.
    cbv iota zeta.
    replace (Z.min (Z.max 0 0) _) with 0 by lia.
    rewrite Z.add_0_r. apply firstn_skipn.
  - rewrite H1, H3. rewrite Z.add_0_l.
    destruct (Z.of_nat k <? 0) eqn:E1; [lia|].
    destruct (Z.of_nat k =? -1) eqn:E2; [lia|].
    cbv zeta.
    replace (Z.min (Z.of_nat k) (Z.of_nat (List.length l))) with (Z.of_nat k) by lia.
    replace (Z.min (Z.max 1 0) _) with 1 by lia.
    replace (Z.to_nat (Z.of_nat k + 1)) with (S k) by lia.
    rewrite Nat2Z.id. reflexivity.
Qed.

Lemma backtrack_removeFirst (x : Z) (st : SearchState) :
  backtrack x st = {| acc := acc st; temp := removeFirst x (temp st) |}.
Proof. unfold backtrack. cbv zeta. rewrite splice_indexOf. reflexivity. Qed.

Lemma removeFirst_all_eq (x : Z) (l : list Z) :
  Forall (eq x) l -> l ++ [x] = x :: l.
Proof.
  induction 1 as [|y l Hy _ IH]; simpl; [reflexivity|].
  subst y. rewrite IH. reflexivity.
Qed.

Lemma at_inj (input : list Z) (i j : nat) :
  NoDup input -> (i < List.length input)%nat -> (j < List.length input)%nat ->
  at_ input i = at_ input j -> i = j.
Proof.
  intros Hnd Hi Hj H. unfold at_ in H.
  apply (proj1 (NoDup_nth input 0) Hnd i j Hi Hj H).
Qed.

(** The undo of [findNumbers] gives back the partial sequence it had
    before the push: the first occurrence of [input[i]] it removes starts
    the run of equal members that ends the array. *)
Lemma removeFirst_restores (input : list Z) (i : nat) (idxs : list nat) :
  NoDup input -> (i < List.length input)%nat ->
  StronglySorted le idxs ->
  Forall (fun j => (j <= i)%nat /\ (j < List.length input)%nat) idxs ->
  removeFirst (at_ input i) (map (at_ input) idxs ++ [at_ input i])
  = map (at_ input) idxs.
Proof.
  intros Hnd Hi Hs Hb.
  induction idxs as [|a s IH]; simpl.
  - rewrite Z.eqb_refl. reflexivity.
  - inversion Hs as [|? ? Hs' Hle]; subst. inversion Hb as [|? ? [Ha1 Ha2] Hb']; subst.
    destruct (at_ input a =? at_ input i) eqn:E.
    + apply Z.eqb_eq in E. apply at_inj in E; try assumption. subst a.
      apply removeFirst_all_eq.
      rewrite Forall_forall in *. intros y Hy.
      apply in_map_iff in Hy. destruct Hy as [j [Hj1 Hj2]]. subst y.
      specialize (Hle j Hj2). specialize (Hb' j Hj2).
      replace j with i by lia. reflexivity.
    + f_equal. apply IH; assumption.
Qed.

Lemma cursorInv_push (input : list Z) (index i : nat) (temp : list Z) :
  cursorInv input index temp -> (index <= i)%nat -> (i < List.length input)%nat ->
  cursorInv input i (temp ++ [at_ input i]).
Proof.
  intros [idxs [H1 [H2 H3]]] Hle Hlt.
  exists (idxs ++ [i]). rewrite map_app. simpl. subst temp. split; [reflexivity|].
  split.
  - clear -H2 H3 Hle. induction idxs as [|a s IH]; simpl.
    + constructor; constructor.
    + inversion H2; subst. inversion H3 as [|? ? [Ha _] H3']; subst.
      constructor; [apply IH; assumption|].
      apply Forall_app. split; [assumption|]. constructor; [lia|constructor].
  - apply Forall_app. split.
    + eapply Forall_impl; [|exact H3]. simpl. intros j [Hj1 Hj2]. lia.
    + constructor; [lia|constructor].
Qed.

Lemma cursorInv_restore (input : list Z) (index i : nat) (temp : list Z) :
  NoDup input -> cursorInv input index temp ->
  (index <= i)%nat -> (i < List.length input)%nat ->
  removeFirst (at_ input i) (temp ++ [at_ input i]) = temp.
Proof.
  intros Hnd [idxs [H1 [H2 H3]]] Hle Hlt. subst temp.
  apply removeFirst_restores; try assumption.
  eapply Forall_impl; [|exact H3]. simpl. intros j [Hj1 Hj2]. lia.
Qed.

(* ================================================================== *)
(** ** The search computes [enum] *)
(* ================================================================== *)

Lemma findNumbers_unfold (fuel : nat) (input : list Z) (sum index : Z) (st : SearchState) :
  findNumbers (S fuel) input sum index st =
  if sum =? 0 then Some (record st)
  else
    forEachM (range index (Z.of_nat (List.length input))) st
      (fun i st =>
         match elementAt input i with
         | Some x =>
             if sum - x >=? 0 then
               match findNumbers fuel input (sum - x) i (push x st) with
               | Some st' => Some (backtrack x st')
               | None => None
               end
             else Some st
         | None => Some st
         end).
Proof. reflexivity. Qed.

Lemma elementAt_of_nat (input : list Z) (i : nat) :
  elementAt input (Z.of_nat i) = nth_error input i.
Proof.
  unfold elementAt. destruct (Z.ltb_spec (Z.of_nat i) 0) as [H|_]; [lia|].
  rewrite Nat2Z.id. reflexivity.
Qed.

Lemma elementAt_In (input : list Z) (i x : Z) :
  elementAt input i = Some x -> In x input.
Proof.
  unfold elementAt. destruct (i <? 0); [discriminate|]. apply nth_error_In.
Qed.

Lemma nth_error_at (input : list Z) (i : nat) (x : Z) :
  nth_error input i = Some x -> x = at_ input i /\ (i < List.length input)%nat.
Proof.
  intro H. split.
  - unfold at_. symmetry. apply nth_error_nth. assumption.
  - apply nth_error_Some. congruence.
Qed.

Lemma map_app_snoc (temp : list Z) (x : Z) (l : list (list Z)) :
  map (app (temp ++ [x])) l = map (app temp) (map (cons x) l).
Proof.
  rewrite map_map. apply map_ext. intro e. rewrite <- app_assoc. reflexivity.
Qed.

(** When a call of [findNumbers] returns, it has appended to [acc] its
    partial sequence extended by each member of [enum], and [temp] is what
    it was. *)
Lemma findNumbers_refines (input : list Z) (Hnd : NoDup input) (fuel : nat) :
  forall (sum : Z) (index : nat) (st st' : SearchState),
    cursorInv input index (temp st) ->
    findNumbers fuel input sum (Z.of_nat index) st = Some st' ->
    st' = {| acc := acc st ++ map (app (temp st)) (enum fuel input sum index);
             temp := temp st |}.
Proof.
  induction fuel as [|fuel IHfuel]; intros sum index st st' Hinv Hrun.
  - discriminate.
  - rewrite findNumbers_unfold in Hrun. simpl enum.
    destruct (sum =? 0) eqn:E0.
    + injection Hrun as <-. unfold record. simpl. rewrite app_nil_r. reflexivity.
    + rewrite range_of_nat in Hrun.
      assert (Hge : Forall (fun i => (index <= i)%nat)
                      (seq index (List.length input - index))).
      { apply Forall_forall. intros i Hi. apply in_seq in Hi. lia. }
      revert st st' Hinv Hrun Hge.
      generalize (seq index (List.length input - index)) as is_.
      induction is_ as [|i is_ IHl]; intros st st' Hinv Hrun Hge.
      * simpl in *. injection Hrun as <-. rewrite app_nil_r. destruct st; reflexivity.
      * inversion Hge as [|? ? Hi Hge']; subst.
        simpl in Hrun. rewrite elementAt_of_nat in Hrun. simpl flat_map.
        destruct (nth_error input i) as [x|] eqn:Ex.
        -- destruct (nth_error_at _ _ Ex) as [-> Hlt].
           destruct (sum - at_ input i >=? 0) eqn:Ege.
           ++ destruct (findNumbers fuel input (sum - at_ input i) (Z.of_nat i)
                          (push (at_ input i) st)) as [st1|] eqn:Erec; [|discriminate].
              apply IHfuel in Erec;
                [|simpl; apply cursorInv_push with (index := index); assumption].
              subst st1. rewrite backtrack_removeFirst in Hrun. simpl in Hrun.
              rewrite (cursorInv_restore Hnd Hinv Hi Hlt) in Hrun.
              apply IHl in Hrun; [|simpl; assumption|assumption].
              simpl in Hrun. rewrite Hrun.
              rewrite map_app, map_app_snoc, app_assoc. reflexivity.
           ++ apply IHl in Hrun; assumption.
        -- apply IHl in Hrun; assumption.
Qed.

(** The search returns when its depth exceeds the remaining sum and the
    domain is positive: a level takes a member of the domain, at least 1,
    from the sum. *)
Lemma findNumbers_returns (input : list Z) (Hpos : Forall (fun x => 0 < x) input)
    (fuel : nat) :
  forall (sum index : Z) (st : SearchState),
    (Z.to_nat sum < fuel)%nat ->
    exists st', findNumbers fuel input sum index st = Some st'.
Proof.
  induction fuel as [|fuel IHfuel]; intros sum index st Hfuel; [lia|].
  rewrite findNumbers_unfold.
  destruct (sum =? 0) eqn:E0; [eexists; reflexivity|].
  generalize (range index (Z.of_nat (List.length input))) as is_.
  intro is_. revert st.
  induction is_ as [|i is_ IHl]; intro st; simpl.
  - eexists; reflexivity.
  - destruct (elementAt input i) as [x|] eqn:Ex; [|apply IHl].
    destruct (sum - x >=? 0) eqn:Ege; [|apply IHl].
    assert (Hx : 0 < x).
    { apply elementAt_In in Ex. rewrite Forall_forall in Hpos. auto. }
    destruct (IHfuel (sum - x) i (push x st)) as [st1 Hst1]; [lia|].
    rewrite Hst1. apply IHl.
Qed.


(* ================================================================== *)
(** ** What [enum] lists *)
(* ================================================================== *)

(** A member of [enum] reads [input] at positions that never decrease,
    start at the cursor, and its members add up to the sum. *)
Lemma enum_sound (input : list Z) (fuel : nat) :
  forall (sum : Z) (index : nat) (c : list Z),
    In c (enum fuel input sum index) ->
    exists idxs,
      c = map (at_ input) idxs /\
      StronglySorted le idxs /\
      Forall (fun j => (index <= j)%nat /\ (j < List.length input)%nat) idxs /\
      sumZ c = sum.
Proof.
  induction fuel as [|fuel IH]; intros sum index c Hc; simpl in Hc; [contradiction|].
  destruct (sum =? 0) eqn:E0.
  - destruct Hc as [<-|[]]. exists []. apply Z.eqb_eq in E0. subst sum.
    repeat split; constructor.
  - apply in_flat_map in Hc. destruct Hc as [i [Hi Hc]]. apply in_seq in Hi.
    destruct (nth_error input i) as [x|] eqn:Ex; [|contradiction].
    destruct (nth_error_at _ _ Ex) as [-> Hlt].
    destruct (sum - at_ input i >=? 0); [|contradiction].
    apply in_map_iff in Hc. destruct Hc as [c' [<- Hc']].
    destruct (IH _ _ _ Hc') as [idxs [-> [Hs [Hb Hsum]]]].
    exists (i :: idxs). repeat split.
    + constructor; [assumption|].
      eapply Forall_impl; [|exact Hb]. simpl. intros j [Hj _]. exact Hj.
    + constructor; [lia|].
      eapply Forall_impl; [|exact Hb]. simpl. intros j [Hj1 Hj2]. lia.
    + unfold sumZ in *. simpl. lia.
Qed.

Lemma sumZ_at_nonneg (input : list Z) (idxs : list nat) :
  Forall (fun x => 0 < x) input ->
  Forall (fun j => (j < List.length input)%nat) idxs ->
  0 <= sumZ (map (at_ input) idxs).
Proof.
  intros Hpos Hb. induction Hb as [|j idxs Hj _ IH]; simpl; [lia|].
  assert (0 < at_ input j).
  { rewrite Forall_forall in Hpos. apply Hpos. unfold at_. apply nth_In, Hj. }
  lia.
Qed.

(** On a positive domain, [enum] lists every non-decreasing choice of
    positions from the cursor on whose members add up to the sum. *)
Lemma enum_complete (input : list Z) (Hpos : Forall (fun x => 0 < x) input)
    (fuel : nat) :
  forall (sum : Z) (index : nat) (idxs : list nat),
    StronglySorted le idxs ->
    Forall (fun j => (index <= j)%nat /\ (j < List.length input)%nat) idxs ->
    sumZ (map (at_ input) idxs) = sum ->
    (Z.to_nat sum < fuel)%nat ->
    In (map (at_ input) idxs) (enum fuel input sum index).
Proof.
  induction fuel as [|fuel IH]; intros sum index idxs Hs Hb Hsum Hfuel; [lia|].
  simpl. destruct idxs as [|i idxs].
  - simpl in Hsum. subst sum. simpl. left. reflexivity.
  - inversion Hs as [|? ? Hs' Hi]; subst. inversion Hb as [|? ? [Hi1 Hi2] Hb']; subst.
    assert (Hx : 0 < at_ input i).
    { rewrite Forall_forall in Hpos. apply Hpos. unfold at_. apply nth_In, Hi2. }
    assert (Hrest : 0 <= sumZ (map (at_ input) idxs)).
    { apply sumZ_at_nonneg; [exact Hpos|].
      eapply Forall_impl; [|exact Hb']. intros j [_ Hj]. exact Hj. }
    change (sumZ (map (at_ input) (i :: idxs)))
      with (at_ input i + sumZ (map (at_ input) idxs)) in *.
    destruct (at_ input i + sumZ (map (at_ input) idxs) =? 0) eqn:E0; [lia|].
    apply in_flat_map. exists i. split; [apply in_seq; lia|].
    assert (Ei : nth_error input i = Some (at_ input i)).
    { unfold at_. apply nth_error_nth'. exact Hi2. }
    rewrite Ei.
    destruct (at_ input i + sumZ (map (at_ input) idxs) - at_ input i >=? 0) eqn:Ege;
      [|lia].
    simpl map. apply in_map. apply IH.
    + exact Hs'.
    + rewrite Forall_forall in *. intros j Hj. specialize (Hi j Hj).
      destruct (Hb' j Hj). lia.
    + lia.
    + lia.
Qed.

Lemma NoDup_map_cons (x : Z) (l : list (list Z)) : NoDup l -> NoDup (map (cons x) l).
Proof.
  induction 1 as [|c l Hc _ IH]; simpl; constructor; [|exact IH].
  intro H. apply in_map_iff in H. destruct H as [c' [E Hc']].
  injection E as ->. contradiction.
Qed.

(** [enum] lists no sequence twice when the domain has no duplicate. *)
Lemma enum_NoDup (input : list Z) (Hnd : NoDup input) (fuel : nat) :
  forall (sum : Z) (index : nat), NoDup (enum fuel input sum index).
Proof.
  induction fuel as [|fuel IH]; intros sum index; simpl; [constructor|].
  destruct (sum =? 0); [repeat constructor; intros []|].
  assert (Hseq : NoDup (seq index (List.length input - index))) by apply seq_NoDup.
  revert Hseq. generalize (seq index (List.length input - index)) as is_.
  induction is_ as [|i is_ IHl]; intro Hseq; simpl; [constructor|].
  inversion Hseq as [|? ? Hi Hseq']; subst.
  apply NoDup_app; [|apply IHl, Hseq'|].
  - destruct (nth_error input i) as [x|]; [|constructor].
    destruct (sum - x >=? 0); [|constructor].
    apply NoDup_map_cons, IH.
  - intros c Hc Hc'.
    destruct (nth_error input i) as [x|] eqn:Ex; [|contradiction].
    destruct (sum - x >=? 0); [|contradiction].
    apply in_map_iff in Hc. destruct Hc as [c1 [<- _]].
    apply in_flat_map in Hc'. destruct Hc' as [j [Hj Hc']].
    destruct (nth_error input j) as [y|] eqn:Ey; [|contradiction].
    destruct (sum - y >=? 0); [|contradiction].
    apply in_map_iff in Hc'. destruct Hc' as [c2 [E _]].
    injection E as -> _.
    assert (i = j); [|subst j; contradiction].
    destruct (nth_error_at _ _ Ex) as [Hxi Hli].
    destruct (nth_error_at _ _ Ey) as [Hxj Hlj].
    apply (at_inj Hnd Hli Hlj). congruence.
Qed.

Lemma at_in (input : list Z) (j : nat) :
  (j < List.length input)%nat -> In (at_ input j) input.
Proof. intro H. unfold at_. apply nth_In. assumption. Qed.




Lemma StronglySorted_lt_NoDup (l : list Z) : StronglySorted Z.lt l -> NoDup l.
Proof.
  induction 1 as [|a l Hs IH Ha]; constructor; [|assumption].
  intro Hin. rewrite Forall_forall in Ha. specialize (Ha a Hin). lia.
Qed.

(* ------------------------------------------------------------------ *)
(** *** The sort and the set *)

Section SortBy.

Variable A : Type.
Variable after : A -> A -> bool.

Lemma insertBy_perm (x : A) (l : list A) : Permutation (insertBy after x l) (x :: l).
Proof.
  induction l as [|y l IH]; simpl; [reflexivity|].
  destruct (after y x); [reflexivity|].
  rewrite IH. apply perm_swap.
Qed.

Lemma sortBy_perm (l : list A) : Permutation (sortBy after l) l.
Proof.
  unfold sortBy.
  assert (H : forall sorted, Permutation
            (fold_left (fun sorted x => insertBy after x sorted) l sorted) (sorted ++ l)).
  { induction l as [|x l IH]; intro sorted; simpl.
    - rewrite app_nil_r. reflexivity.
    - rewrite IH, insertBy_perm. apply Permutation_middle. }
  apply (H []).
Qed.

Lemma sortBy_In (l : list A) (x : A) : In x (sortBy after l) <-> In x l.
Proof.
  split; apply Permutation_in; [|symmetry]; apply sortBy_perm.
Qed.

End SortBy.

Lemma setFrom_In (input seen : list Z) (x : Z) :
  In x (setFrom seen input) <-> In x input /\ ~ In x seen.
Proof.
  revert seen. induction input as [|y input IH]; intro seen; simpl; [tauto|].
  destruct (existsb (Z.eqb y) seen) eqn:E.
  - rewrite IH. apply existsb_exists in E. destruct E as [z [Hz Hyz]].
    apply Z.eqb_eq in Hyz. subst z. split; [tauto|].
    intros [[->|H] Hn]; tauto.
  - simpl. rewrite IH. simpl.
    assert (Hy : ~ In y seen).
    { intro H. rewrite <- not_true_iff_false in E. apply E.
      apply existsb_exists. exists y. split; [assumption|apply Z.eqb_refl]. }
    destruct (Z.eq_dec y x) as [->|Hne]; [tauto|]. tauto.
Qed.

Lemma setFrom_NoDup (input seen : list Z) : NoDup (setFrom seen input).
Proof.
  revert seen. induction input as [|y input IH]; intro seen; simpl; [constructor|].
  destruct (existsb (Z.eqb y) seen); [apply IH|].
  constructor; [|apply IH].
  rewrite setFrom_In. simpl. tauto.
Qed.

Lemma sorted_set_In (input : list Z) (x : Z) :
  In x (defaultSort (newSet input)) <-> In x input.
Proof.
  unfold defaultSort, newSet. rewrite sortBy_In, setFrom_In. simpl. tauto.
Qed.

Lemma sorted_set_NoDup (input : list Z) : NoDup (defaultSort (newSet input)).
Proof.
  unfold defaultSort, newSet.
  eapply Permutation_NoDup; [symmetry; apply sortBy_perm|apply setFrom_NoDup].
Qed.

Lemma cursorInv_nil (input : list Z) : cursorInv input 0 [].
Proof. exists []. repeat split; constructor. Qed.

(** The result of [findAllCombinations], when it returns, is what [enum]
    lists from cursor 0, filtered by length. *)
Lemma findAllCombinations_enum (fuel : nat) (input : list Z) (sum maxLength : Z)
    (result : list (list Z)) :
  findAllCombinations fuel input sum maxLength = Some result ->
  result = filter (fun combo => Z.of_nat (List.length combo) =? maxLength)
             (enum fuel (defaultSort (newSet input)) sum 0).
Proof.
  unfold findAllCombinations. cbv zeta.
  destruct (findNumbers fuel (defaultSort (newSet input)) sum 0
              {| acc := []; temp := [] |}) as [st|] eqn:E; [|discriminate].
  intro H. injection H as <-.
  apply (findNumbers_refines (sorted_set_NoDup input) fuel sum (index:=0)) in E;
    [|apply cursorInv_nil].
  subst st. simpl. f_equal. rewrite <- (map_id (enum _ _ _ _)) at 2.
  apply map_ext. reflexivity.
Qed.

Lemma findAllCombinations_returns (fuel : nat) (input : list Z) (sum maxLength : Z) :
  Forall (fun x => 0 < x) input -> (Z.to_nat sum < fuel)%nat ->
  exists result, findAllCombinations fuel input sum maxLength = Some result.
Proof.
  intros Hpos Hfuel. unfold findAllCombinations. cbv zeta.
  assert (Hpos' : Forall (fun x => 0 < x) (defaultSort (newSet input))).
  { apply Forall_forall. intros x Hx. apply (proj1 (sorted_set_In _ _)) in Hx.
    rewrite Forall_forall in Hpos. exact (Hpos x Hx). }
  destruct (findNumbers_returns Hpos' sum 0 {| acc := []; temp := [] |} Hfuel)
    as [st Hst].
  rewrite Hst. eexists; reflexivity.
Qed.

(* ================================================================== *)
(** ** The partition generator: what it returns *)
(* ================================================================== *)

Lemma possibleArmLengths_run :
  exists lengths, possibleArmLengths = Some lengths /\ In [24; 24; 24] lengths.
Proof.
  eexists. split; [vm_compute; reflexivity|].
  repeat (first [left; reflexivity | right]).
Qed.

(** Every sequence returned has the required length, takes its members
    from the domain and adds up to the target. *)
Lemma findAllCombinations_sound (fuel : nat) (input : list Z) (sum maxLength : Z)
    (result : list (list Z)) :
  findAllCombinations fuel input sum maxLength = Some result ->
  Forall (fun combo =>
            Z.of_nat (List.length combo) = maxLength
            /\ Forall (fun x => In x input) combo
            /\ sumZ combo = sum) result.
Proof.
  intro H. apply findAllCombinations_enum in H. subst result.
  apply Forall_forall. intros combo Hc. apply filter_In in Hc.
  destruct Hc as [Hc Hlen]. apply Z.eqb_eq in Hlen.
  apply enum_sound in Hc. destruct Hc as [idxs [-> [_ [Hb Hsum]]]].
  repeat split; [exact Hlen| |exact Hsum].
  apply Forall_map. eapply Forall_impl; [|exact Hb].
  intros j [_ Hj]. apply sorted_set_In, at_in, Hj.
Qed.


(** On a domain with a member that is not positive the search may not
    return: with 0 in the domain it pushes 0 for ever. *)
Lemma findNumbers_zero_diverges (fuel : nat) (st : SearchState) :
  findNumbers fuel [0] 1 0 st = None.
Proof.
  revert st. induction fuel as [|fuel IH]; intro st; [reflexivity|].
  rewrite findNumbers_unfold. simpl. rewrite IH. reflexivity.
Qed.






(** C4 at the domain {2, 10}: the default sort puts 10 before 2, and the
    one sequence returned for the target 12 and the count 2 is [10, 2];
    the strictly increasing [2, 10] is not returned. *)
Lemma findAllCombinations_string_order :
  NoDup [2; 10] /\ Forall (fun x => 0 < x) [2; 10]
  /\ defaultSort (newSet [2; 10]) = [10; 2]
  /\ findAllCombinations 13 [2; 10] 12 2 = Some [[10; 2]]
  /\ Sorted Z.lt [2; 10] /\ sumZ [2; 10] = 12
  /\ ~ In [2; 10] [[10; 2]].
Proof.
  split; [|split; [|split; [|split; [|split; [|split]]]]].
  - apply StronglySorted_lt_NoDup. repeat constructor; lia.
  - repeat constructor; lia.
  - vm_compute. reflexivity.
  - vm_compute. reflexivity.
  - repeat constructor.
  - reflexivity.
  - intros [H|[]]. discriminate.
Qed.

(* ================================================================== *)
(** ** The aggregates of an arm, in any arithmetic *)
(* ================================================================== *)

Section Aggregates.

Context {num : Type} {N : Number num}.
Local Open Scope js_scope.

Lemma reduceFrom_sum (T : Type) (g : T -> num) (l : list T) (i : nat) (init : num) :
  reduceFrom (fun acc x _ => acc + g x) i l init = fold_left add (map g l) init.
Proof.
  revert i init. induction l as [|x l IH]; intros i init; simpl; [reflexivity|].
  apply IH.
Qed.

Lemma reduceFrom_indices (T : Type) (g : nat -> num) (l : list T) (i : nat) (init : num) :
  reduceFrom (fun acc _ index => acc + g index) i l init
  = fold_left add (map g (seq i (List.length l))) init.
Proof.
  revert i init. induction l as [|x l IH]; intros i init; simpl; [reflexivity|].
  apply IH.
Qed.

Lemma fold_left_snoc (T U : Type) (f : T -> U) (l : list T) (init : list U) :
  fold_left (fun out x => out ++ [f x]) l init = init ++ map f l.
Proof.
  revert init. induction l as [|x l IH]; intro init; simpl.
  - rewrite app_nil_r. reflexivity.
  - rewrite IH, <- app_assoc. reflexivity.
Qed.

Lemma newArm_components (segmentLengths : list num) :
  components (newArm segmentLengths)
  = map (fun len => ASegment (newSegment len)) segmentLengths ++ [AGrabber newGrabber].
Proof. unfold newArm. simpl. rewrite fold_left_snoc. reflexivity. Qed.

Lemma Arm_getMass_total (this : Arm num) :
  getMass this = total (map getMass (components this)).
Proof. apply reduceFrom_sum. Qed.

Lemma Arm_getLength_total (this : Arm num) :
  getLength this = total (map getLength (components this)).
Proof. apply reduceFrom_sum. Qed.

Lemma lengthAt_firstn (this : Arm num) (i : nat) :
  (i <= List.length (components this))%nat ->
  map (lengthAt this) (seq 0 i) = map getLength (firstn i (components this)).
Proof.
  unfold lengthAt. generalize (components this) as cs. intro cs.
  revert i. induction cs as [|c cs IH]; intros [|i] Hi; simpl in *;
    try reflexivity; try lia.
  rewrite <- seq_shift, map_map. simpl. f_equal. apply IH. lia.
Qed.

(** The array [d] of [Arm.getCenterOfMass] holds the positions of the
    components, in order. *)
Lemma distances_from (this : Arm num) (pre suf : list (Component num)) (d : list num) :
  components this = pre ++ suf ->
  List.length d = List.length pre ->
  reduceFrom
    (fun (acc : list num) component index =>
       let lengthOfPreviousComponents :=
         if Nat.eqb index 0 then lit 0
         else reduce (fun length _ index => length + lengthAt this index) acc (lit 0) in
       acc ++ [lengthOfPreviousComponents + getCenterOfMass component])
    (List.length pre) suf d
  = d ++ map (position this) (combine (seq (List.length pre) (List.length suf)) suf).
Proof.
  revert pre d. induction suf as [|c suf IH]; intros pre d Hcs Hd; simpl.
  - rewrite app_nil_r. reflexivity.
  - assert (Hpos :
      (if Nat.eqb (List.length pre) 0 then lit 0
       else reduce (fun length _ index => length + lengthAt this index) d (lit 0))
      = cumulativeLength this (List.length pre)).
    { unfold cumulativeLength, total, reduce.
      rewrite reduceFrom_indices, Hd, lengthAt_firstn
        by (rewrite Hcs, length_app; lia).
      destruct pre; reflexivity. }
    rewrite Hpos.
    specialize (IH (pre ++ [c]) (d ++ [cumulativeLength this (List.length pre)
                                        + getCenterOfMass c])).
    rewrite !length_app in IH. simpl in IH.
    replace (List.length pre + 1)%nat with (S (List.length pre)) in IH by lia.
    rewrite IH; [|rewrite Hcs, <- app_assoc; reflexivity|lia].
    rewrite <- app_assoc. reflexivity.
Qed.

Lemma distances_positions (this : Arm num) :
  distances this = map (position this) (indexed this).
Proof.
  unfold distances, reduce, indexed.
  apply (@distances_from this [] (components this) []); reflexivity.
Qed.

Lemma d_length (this : Arm num) :
  List.length (distances this) = List.length (components this).
Proof.
  rewrite distances_positions. unfold indexed.
  rewrite length_map, length_combine, length_seq. apply Nat.min_id.
Qed.

Lemma numerator_from (T : Type) (m : T -> num) (f : nat * T -> num)
    (suf : list T) (dpre : list num) (w : num) :
  reduceFrom
    (fun weightedMass component index =>
       weightedMass
       + m component
         * nth index (dpre ++ map f (combine (seq (List.length dpre) (List.length suf)) suf))
             (lit 0))
    (List.length dpre) suf w
  = fold_left add
      (map (fun ic => m (snd ic) * f ic)
         (combine (seq (List.length dpre) (List.length suf)) suf)) w.
Proof.
  revert dpre w. induction suf as [|c suf IH]; intros dpre w; simpl; [reflexivity|].
  rewrite nth_middle.
  specialize (IH (dpre ++ [f (List.length dpre, c)])
                 (w + m c * f (List.length dpre, c))).
  rewrite length_app in IH. simpl in IH.
  replace (List.length dpre + 1)%nat with (S (List.length dpre)) in IH by lia.
  rewrite <- IH. rewrite <- app_assoc. reflexivity.
Qed.

Lemma Arm_getCenterOfMass_weighted (this : Arm num) :
  getCenterOfMass this
  = weightedPositions this / total (map getMass (components this)).
Proof.
  simpl. unfold Arm_getCenterOfMass. cbv zeta.
  rewrite distances_positions. unfold reduce. rewrite reduceFrom_sum.
  f_equal. unfold weightedPositions, total, indexed.
  apply (@numerator_from _ getMass (position this) (components this) [] (lit 0)).
Qed.

(** C8.  The components of [new Arm(...segmentLengths)] are one segment
    for each length, in the order given, and then one grabber: reading
    [getLength()] of the components in order gives the lengths given and
    then the 12 of the grabber. *)
Theorem newArm_lengths_roundtrip (segmentLengths : list num) :
  components (newArm segmentLengths)
  = map (fun len => ASegment (newSegment len)) segmentLengths ++ [AGrabber newGrabber]
  /\ map getLength (components (newArm segmentLengths)) = segmentLengths ++ [lit 12].
Proof.
  split; [apply newArm_components|].
  rewrite newArm_components, map_app, map_map. simpl.
  rewrite map_id. reflexivity.
Qed.

(** C3, amended.  The mass of a segment of length [L] is the material
    mass of the specification's formula plus the masses of the motor
    controller (0.25), the motor, the gearbox base, three gearbox stages
    and the sprocket: the motor controller is one more term than the
    claim lists. *)
Theorem Segment_getMass_formula (L : num) :
  Segment_materialMass (newSegment L) = specMaterialMass L
  /\ getMass (newSegment L)
     = specMaterialMass L + lit 0.25 + lit 0.938 + lit 0.576 + lit 0.303 * lit 3
       + lit 0.5.
Proof. split; reflexivity. Qed.

(** C5.  The mass and the length of an arm are the sums of those of its
    components; its centre of mass is the sum of mass times position over
    the components, divided by the sum of the masses, where the position
    of a component is the summed length of the components before it plus
    its own centre of mass; its torque at the base is its mass times its
    centre of mass.  (The sums run from 0, left to right; the product of
    the source is centre of mass times mass.) *)
Theorem Arm_aggregates (this : Arm num) :
  mulCommutes ->
  getMass this = total (map getMass (components this))
  /\ getLength this = total (map getLength (components this))
  /\ getCenterOfMass this
     = weightedPositions this / total (map getMass (components this))
  /\ getTorqueAtBase this = getMass this * getCenterOfMass this.
Proof.
  intro Hcomm. repeat split.
  - apply Arm_getMass_total.
  - apply Arm_getLength_total.
  - apply Arm_getCenterOfMass_weighted.
  - unfold getTorqueAtBase. apply Hcomm.
Qed.

End Aggregates.

(* ================================================================== *)
(** ** The model on doubles *)
(* ================================================================== *)

Lemma float_mul_comm : mulCommutes (N := float_Number).
Proof.
  intros x y. simpl. apply Prim2SF_inj. rewrite !mul_spec. unfold SF64mul, SFmul.
  destruct (Prim2SF x) as [sx|sx| |sx mx ex], (Prim2SF y) as [sy|sy| |sy my ey];
    try reflexivity; rewrite ?(xorb_comm sx); try reflexivity.
  rewrite Pos.mul_comm, Z.add_comm. reflexivity.
Qed.

(** The literals of the source denote the doubles the engine reads. *)
Example float_literals :
  (lit 0.23622 = 0x1.e3c74fb549f95p-3 /\ lit 0.0975437 = 0x1.8f89fb96e4b37p-4
   /\ lit 7.5 = 7.5 /\ lit 12 = 12 /\ lit 0.5 = 0.5)%float.
Proof. vm_compute. repeat split. Qed.

Lemma Arm_aggregates_witness :
  let this := newArm (N := float_Number) (map ofZ [12; 24; 36]) in
  getMass this = total (map getMass (components this))
  /\ getLength this = total (map getLength (components this))
  /\ getCenterOfMass this
     = (weightedPositions this / total (map getMass (components this)))%js
  /\ getTorqueAtBase this = (getMass this * getCenterOfMass this)%js.
Proof. exact (Arm_aggregates (newArm (map ofZ [12; 24; 36])) float_mul_comm). Defined.

(** C3, as claimed, fails: for a segment of length 12 the mass computed
    is 4.929..., the claimed sum is 4.679... *)
Lemma Segment_getMass_not_claimed :
  getMass (newSegment (N := float_Number) (lit 12)) = 4.9292316450570617%float
  /\ specSegmentMass (N := float_Number) (lit 12) = 4.6792316450570617%float
  /\ getMass (newSegment (N := float_Number) (lit 12))
     <> specSegmentMass (N := float_Number) (lit 12).
Proof.
  vm_compute. repeat split. intro H.
  apply (f_equal (fun x => PrimFloat.eqb x 4.9292316450570617%float)) in H.
  vm_compute in H. discriminate.
Qed.

(** C10.  [new Arm()] has the grabber as its only component; its mass is
    7.5, its length 12, its centre of mass 4 and its torque at the base 30
    (the division is 30 / 7.5).  This holds on doubles and in exact
    arithmetic. *)
Theorem newArm_empty :
  (let this := newArm (N := float_Number) [] in
   components this = [AGrabber newGrabber]
   /\ getMass this = 7.5%float /\ getLength this = 12%float
   /\ getCenterOfMass this = 4%float /\ getTorqueAtBase this = 30%float)
  /\
  (let this := newArm (N := R_Number) [] in
   components this = [AGrabber newGrabber]
   /\ getMass this = 7.5%R /\ getLength this = 12%R
   /\ getCenterOfMass this = 4%R /\ getTorqueAtBase this = 30%R).
Proof.
  split.
  - vm_compute. repeat split.
  - cbv zeta. unfold getTorqueAtBase. simpl.
    unfold Arm_getCenterOfMass, Arm_getMass, Arm_getLength, distances, reduce. simpl.
    unfold Q2R. simpl. repeat split; try reflexivity; try lra; field.
Qed.

(* ================================================================== *)
(** ** The model in exact arithmetic *)
(* ================================================================== *)

Section Exact.

Local Open Scope R_scope.

Lemma lit0_R : lit (num := R) 0 = 0.
Proof. simpl. unfold Q2R. simpl. lra. Qed.

Lemma fold_left_Rplus (l : list R) (a : R) : fold_left Rplus l a = a + sumR l.
Proof.
  revert a. induction l as [|x l IH]; intro a; simpl; [lra|].
  rewrite IH. lra.
Qed.

Lemma total_sumR (l : list R) : total l = sumR l.
Proof.
  unfold total. change (@add R R_Number) with Rplus.
  rewrite fold_left_Rplus, lit0_R. lra.
Qed.

Lemma sumR_app (l1 l2 : list R) : sumR (l1 ++ l2) = sumR l1 + sumR l2.
Proof. induction l1 as [|x l1 IH]; simpl; [lra|]. rewrite IH. lra. Qed.

Lemma sumR_nonneg (l : list R) : Forall (fun x => 0 <= x) l -> 0 <= sumR l.
Proof. induction 1 as [|x l Hx _ IH]; simpl; lra. Qed.

Lemma PI_gt_3 : 3 < PI.
Proof. pose proof PI2_3_2. lra. Qed.

Lemma segment_wellPlaced (L : R) : 0 < L -> wellPlaced (ASegment (newSegment L)).
Proof.
  intro HL. pose proof PI_gt_3 as Hpi. unfold wellPlaced. simpl.
  unfold Segment_getMass, Segment_getLength, Segment_getCenterOfMass. simpl.
  unfold Q2R. simpl. repeat split; lra.
Qed.


End Exact.

(* ================================================================== *)
(** ** The run *)
(* ================================================================== *)

Lemma insertions_in (x : Z) (p1 p2 : list Z) :
  In (p1 ++ x :: p2) (insertions x (p1 ++ p2)).
Proof.
  induction p1 as [|y p1 IH]; simpl.
  - destruct p2; left; reflexivity.
  - right. apply in_map. exact IH.
Qed.

Lemma orderings_complete : yieldsEveryOrdering orderings.
Proof.
  intro l. induction l as [|x l IH]; intros p Hp.
  - apply Permutation_sym, Permutation_nil in Hp. subst p. left. reflexivity.
  - assert (Hx : In x p).
    { apply Permutation_in with (l := x :: l); [symmetry; exact Hp|left; reflexivity]. }
    apply in_split in Hx. destruct Hx as [p1 [p2 ->]].
    apply Permutation_sym, Permutation_cons_app_inv, Permutation_sym in Hp.
    simpl. apply in_flat_map. exists (p1 ++ p2). split; [apply IH, Hp|].
    apply insertions_in.
Qed.

Section Run.

Context {num : Type} {N : Number num}.
Variable permutation : list Z -> list (list Z).
Hypothesis permutation_complete : yieldsEveryOrdering permutation.

(** The arm of three segments of length 24 is one of those generated. *)
Lemma generatedArms_symmetric :
  exists generated,
    generatedArms permutation = Some generated
    /\ In (newArm (map ofZ [24; 24; 24])) generated.
Proof.
  destruct possibleArmLengths_run as [lengths [E Hin]].
  unfold generatedArms, filteredArmLengthPermutations, possibleArmLengthPermutations.
  rewrite E. simpl option_map. eexists. split; [reflexivity|].
  apply (in_map (fun armConfig => newArm (map ofZ armConfig))).
  apply filter_In. split; [|reflexivity].
  apply in_flat_map. exists [24; 24; 24]. split; [exact Hin|].
  apply permutation_complete. reflexivity.
Qed.

End Run.

(** The run evaluated on doubles, with the orderings of [orderings]: 762
    arms are generated; after the sort the first has segments 12, 14, 46
    and the last 48, 12, 12; the lookup returns the arm of segments 24, 24,
    24; the torque of every arm lies between those of the first and the
    last, and its centre of mass between 0 and its length. *)
Lemma run_on_doubles :
  exists (sorted : list (Arm float)) (best worst : Arm float),
    arms orderings = Some sorted
    /\ List.length sorted = 762%nat
    /\ first sorted = Some best /\ final sorted = Some worst
    /\ map getLength (components best) = [12; 14; 46; 12]%float
    /\ map getLength (components worst) = [48; 12; 12; 12]%float
    /\ findE symmetric sorted = Some (Some (newArm (map ofZ [24; 24; 24])))
    /\ forallb
         (fun arm =>
            PrimFloat.leb (getTorqueAtBase best) (getTorqueAtBase arm)
            && PrimFloat.leb (getTorqueAtBase arm) (getTorqueAtBase worst)
            && PrimFloat.ltb 0 (getCenterOfMass arm)
            && PrimFloat.ltb (getCenterOfMass arm) (getLength arm))
         sorted = true.
Proof.
  do 3 eexists. split; [vm_compute; reflexivity|].
  split; [vm_compute; reflexivity|].
  split; [vm_compute; reflexivity|].
  split; [vm_compute; reflexivity|].
  repeat split; vm_compute; reflexivity.
Qed.

(** C2, as claimed, fails: with the orderings of [orderings], the lookup
    of the run returns the arm of segment lengths 24, 24 and 24. *)
Lemma symmetricArm_not_none :
  symmetricArm (N := float_Number) orderings
  = Some (Some (newArm (map ofZ [24; 24; 24])))
  /\ map getLength (components (newArm (N := float_Number) (map ofZ [24; 24; 24])))
     = [24; 24; 24; 12]%float.
Proof.
  split; [|vm_compute; reflexivity].
  destruct run_on_doubles as [sorted [best [worst [E [_ [_ [_ [_ [_ [H _]]]]]]]]]].
  unfold symmetricArm. rewrite E. exact H.
Qed.

(* ------------------------------------------------------------------ *)
(** *** The ranking, in exact arithmetic *)

Section Ranking.

Local Open Scope R_scope.

Lemma torqueAfter_lt (b a : Arm R) :
  torqueAfter b a = true <-> torque a < torque b.
Proof.
  unfold torqueAfter, torque.
  change (@ltb R R_Number) with (fun x y : R => if Rlt_dec x y then true else false).
  change (@sub R R_Number) with Rminus. cbv beta. rewrite lit0_R.
  destruct (Rlt_dec 0 (getTorqueAtBase b - getTorqueAtBase a)) as [H|H];
    split; intro H'; try reflexivity; try discriminate; lra.
Qed.

Lemma insertBy_torque_sorted (x : Arm R) (l : list (Arm R)) :
  StronglySorted torqueLe l -> StronglySorted torqueLe (insertBy torqueAfter x l).
Proof.
  induction 1 as [|y l Hs IH Hy]; cbn [insertBy].
  - constructor; constructor.
  - destruct (torqueAfter y x) eqn:E.
    + apply torqueAfter_lt in E. constructor; [constructor; assumption|].
      constructor; [unfold torqueLe; lra|].
      eapply Forall_impl; [|exact Hy]. unfold torqueLe. intros a Ha. lra.
    + assert (Hyx : torque y <= torque x).
      { destruct (Rle_or_lt (torque y) (torque x)) as [H|H]; [exact H|].
        apply torqueAfter_lt in H. congruence. }
      constructor; [exact IH|].
      apply Forall_forall. intros a Ha.
      apply (Permutation_in _ (insertBy_perm torqueAfter x l)) in Ha.
      destruct Ha as [<-|Ha]; [exact Hyx|].
      rewrite Forall_forall in Hy. apply Hy, Ha.
Qed.

Lemma sortArms_sorted (l : list (Arm R)) : StronglySorted torqueLe (sortArms l).
Proof.
  unfold sortArms, sortBy.
  assert (H : forall sorted, StronglySorted torqueLe sorted ->
            StronglySorted torqueLe
              (fold_left (fun sorted x => insertBy torqueAfter x sorted) l sorted)).
  { induction l as [|x l IH]; intros sorted Hs; cbn [fold_left]; [exact Hs|].
    apply IH, insertBy_torque_sorted, Hs. }
  apply H. constructor.
Qed.

Lemma first_least (l : list (Arm R)) (best : Arm R) :
  StronglySorted torqueLe l -> first l = Some best ->
  forall arm, In arm l -> torque best <= torque arm.
Proof.
  intros Hs Hf arm Hin. destruct l as [|b l]; [discriminate|].
  injection Hf as ->. inversion Hs as [|? ? _ Hb]; subst.
  destruct Hin as [<-|Hin]; [lra|].
  rewrite Forall_forall in Hb. apply Hb, Hin.
Qed.

Lemma final_snoc (A : Type) (l : list A) (w : A) :
  nth_error (l ++ [w]) (List.length (l ++ [w]) - 1) = Some w.
Proof.
  rewrite length_app. simpl.
  replace (List.length l + 1 - 1)%nat with (List.length l) by lia.
  rewrite nth_error_app2, Nat.sub_diag by lia. reflexivity.
Qed.

Lemma sorted_snoc (l : list (Arm R)) (w : Arm R) :
  StronglySorted torqueLe (l ++ [w]) ->
  forall arm, In arm (l ++ [w]) -> torque arm <= torque w.
Proof.
  induction l as [|a l IH]; cbn [app In]; intros Hs arm Hin.
  - destruct Hin as [<-|[]]. lra.
  - inversion Hs as [|? ? Hs' Ha]; subst.
    destruct Hin as [<-|Hin]; [|apply IH; assumption].
    rewrite Forall_forall in Ha. apply Ha, in_or_app. right. left. reflexivity.
Qed.

Lemma final_greatest (l : list (Arm R)) (worst : Arm R) :
  StronglySorted torqueLe l -> final l = Some worst ->
  forall arm, In arm l -> torque arm <= torque worst.
Proof.
  intros Hs Hf. destruct l as [|a l]; [discriminate|].
  destruct (@exists_last _ (a :: l)) as [l' [w E]]; [discriminate|].
  rewrite E in *. unfold final in Hf.
  destruct (l' ++ [w]) as [|b k] eqn:E'; [destruct l'; discriminate|].
  rewrite <- E' in *. rewrite (final_snoc l' w) in Hf. injection Hf as <-.
  apply sorted_snoc, Hs.
Qed.

End Ranking.

(** The ranking of the run on doubles, read from its evaluation. *)
Lemma ranking_on_doubles :
  exists (generated : list (Arm float)) (best worst : Arm float),
    generatedArms orderings = Some generated
    /\ bestArm orderings = Some best
    /\ worstArm orderings = Some worst
    /\ forall arm, In arm generated ->
         PrimFloat.leb (getTorqueAtBase best) (getTorqueAtBase arm) = true
         /\ PrimFloat.leb (getTorqueAtBase arm) (getTorqueAtBase worst) = true.
Proof.
  destruct run_on_doubles
    as [sorted [best [worst [E [_ [Hb [Hw [_ [_ [_ Hall]]]]]]]]]].
  unfold bestArm, worstArm. rewrite E. unfold arms in *.
  destruct (generatedArms (N := float_Number) orderings) as [generated|];
    [|discriminate].
  simpl in E. injection E as <-.
  exists generated, best, worst.
  split; [reflexivity|]. split; [exact Hb|]. split; [exact Hw|].
  intros arm Harm.
  rewrite forallb_forall in Hall.
  specialize (Hall arm (proj2 (sortBy_In _ _ _) Harm)).
  apply andb_prop in Hall. destruct Hall as [Hall _].
  apply andb_prop in Hall. destruct Hall as [Hall _].
  apply andb_prop in Hall. exact Hall.
Qed.

(** C6.  For the parameters of the run: arms are generated, the sorted
    list has a first arm [bestArm] and a last arm [worstArm], and the torque
    at the base of every generated arm lies between theirs.  This holds in
    exact arithmetic for every permutation generator that yields every
    ordering, and on doubles for the generator [orderings], by evaluation
    of the run. *)
Theorem ranking_correct (permutation : list Z -> list (list Z)) :
  yieldsEveryOrdering permutation ->
  (exists (generated : list (Arm R)) (best worst : Arm R),
     generatedArms permutation = Some generated
     /\ bestArm permutation = Some best
     /\ worstArm permutation = Some worst
     /\ forall arm, In arm generated ->
          (torque best <= torque arm <= torque worst)%R)
  /\
  (exists (generated : list (Arm float)) (best worst : Arm float),
     generatedArms orderings = Some generated
     /\ bestArm orderings = Some best
     /\ worstArm orderings = Some worst
     /\ forall arm, In arm generated ->
          PrimFloat.leb (getTorqueAtBase best) (getTorqueAtBase arm) = true
          /\ PrimFloat.leb (getTorqueAtBase arm) (getTorqueAtBase worst) = true).
Proof.
  intro Hperm. split; [|exact ranking_on_doubles].
  destruct (generatedArms_symmetric (N := R_Number) Hperm) as [generated [E Hin]].
  unfold bestArm, worstArm, arms. rewrite E. simpl.
  pose proof (sortArms_sorted generated) as Hs.
  assert (Hin' : In (newArm (map ofZ [24; 24; 24])) (sortArms generated)).
  { apply sortBy_In. exact Hin. }
  destruct (sortArms generated) as [|b l] eqn:Es; [contradiction|].
  destruct (@exists_last _ (b :: l)) as [l' [w El]]; [discriminate|].
  exists generated, b, w. split; [reflexivity|]. split; [reflexivity|].
  assert (Hf : final (b :: l) = Some w).
  { rewrite El. unfold final.
    destruct (l' ++ [w]) as [|c k] eqn:E'; [destruct l'; discriminate|].
    rewrite <- E'. apply (final_snoc l' w). }
  split; [exact Hf|].
  intros arm Harm.
  assert (Harm' : In arm (b :: l)).
  { rewrite <- Es. apply sortBy_In. exact Harm. }
  split.
  - apply (@first_least (b :: l) b Hs eq_refl arm Harm').
  - apply (@final_greatest (b :: l) w Hs Hf arm Harm').
Qed.

Lemma ranking_correct_witness :
  (exists (generated : list (Arm R)) (best worst : Arm R),
     generatedArms orderings = Some generated
     /\ bestArm orderings = Some best
     /\ worstArm orderings = Some worst
     /\ forall arm, In arm generated ->
          (torque best <= torque arm <= torque worst)%R)
  /\
  (exists (generated : list (Arm float)) (best worst : Arm float),
     generatedArms orderings = Some generated
     /\ bestArm orderings = Some best
     /\ worstArm orderings = Some worst
     /\ forall arm, In arm generated ->
          PrimFloat.leb (getTorqueAtBase best) (getTorqueAtBase arm) = true
          /\ PrimFloat.leb (getTorqueAtBase arm) (getTorqueAtBase worst) = true).
Proof. exact (ranking_correct orderings_complete). Defined.

(* ================================================================== *)
(** ** More on the partition generator *)
(* ================================================================== *)

Lemma range_In (start end_ x : Z) : In x (range start end_) <-> start <= x < end_.
Proof.
  unfold range. rewrite in_map_iff. split.
  - intros [i [<- Hi]]. apply in_seq in Hi. lia.
  - intro H. exists (Z.to_nat (x - start)). split; [lia|apply in_seq; lia].
Qed.


Lemma irange_In (start end_ x : Z) : In x (irange start end_) <-> start <= x <= end_.
Proof. unfold irange. rewrite range_In. lia. Qed.



Section SortBySorted.

Variable A : Type.
Variable P : A -> Prop.
Variable le : A -> A -> Prop.
Variable after : A -> A -> bool.
Hypothesis le_trans : forall x y z, le x y -> le y z -> le x z.
Hypothesis after_true : forall x y, P x -> P y -> after y x = true -> le x y.
Hypothesis after_false : forall x y, P x -> P y -> after y x = false -> le y x.

Lemma insertBy_sorted (x : A) (l : list A) :
  P x -> Forall P l -> StronglySorted le l -> StronglySorted le (insertBy after x l).
Proof.
  intros Hx Hl Hs. induction Hs as [|y l Hs IH Hy]; cbn [insertBy].
  - constructor; constructor.
  - inversion Hl as [|? ? HPy Hl']; subst.
    destruct (after y x) eqn:E.
    + constructor; [constructor; assumption|].
      pose proof (after_true Hx HPy E) as Hxy.
      constructor; [exact Hxy|].
      eapply Forall_impl; [|exact Hy]. intros z Hz. exact (le_trans Hxy Hz).
    + constructor; [apply IH, Hl'|].
      apply Forall_forall. intros z Hz.
      apply (Permutation_in _ (insertBy_perm after x l)) in Hz.
      destruct Hz as [<-|Hz]; [exact (after_false Hx HPy E)|].
      rewrite Forall_forall in Hy. apply Hy, Hz.
Qed.

Lemma sortBy_sorted (l : list A) : Forall P l -> StronglySorted le (sortBy after l).
Proof.
  unfold sortBy. intro Hl.
  assert (H : forall sorted, Forall P sorted -> StronglySorted le sorted ->
            StronglySorted le
              (fold_left (fun sorted x => insertBy after x sorted) l sorted)).
  { induction Hl as [|x l Hx Hl IH]; intros sorted HP Hs; cbn [fold_left]; [exact Hs|].
    apply IH.
    - apply Forall_forall. intros z Hz.
      apply (Permutation_in _ (insertBy_perm after x sorted)) in Hz.
      destruct Hz as [<-|Hz]; [exact Hx|]. rewrite Forall_forall in HP. apply HP, Hz.
    - apply insertBy_sorted; assumption. }
  apply H; constructor.
Qed.

End SortBySorted.

Lemma sorted_le_NoDup_lt (l : list Z) :
  StronglySorted Z.le l -> NoDup l -> StronglySorted Z.lt l.
Proof.
  induction 1 as [|a l Hs IH Ha]; intro Hnd; constructor;
    inversion Hnd as [|? ? Hna Hnd']; subst.
  - apply IH, Hnd'.
  - apply Forall_forall. intros y Hy. rewrite Forall_forall in Ha.
    specialize (Ha y Hy). assert (a <> y) by (intro; subst; contradiction). lia.
Qed.

(** On two-digit integers the order of the strings is the order of the
    numbers (by evaluation of the 90 x 90 comparisons). *)
Lemma two_digits_order (x y : Z) :
  10 <= x <= 99 -> 10 <= y <= 99 -> defaultAfter y x = (x <? y).
Proof.
  intros Hx Hy.
  assert (H : forallb (fun x => forallb (fun y => Bool.eqb (defaultAfter y x) (x <? y))
                                  (irange 10 99)) (irange 10 99) = true)
    by (vm_compute; reflexivity).
  rewrite forallb_forall in H.
  assert (Hix : In x (irange 10 99)) by (unfold irange; apply range_In; lia).
  assert (Hiy : In y (irange 10 99)) by (unfold irange; apply range_In; lia).
  specialize (H x Hix). rewrite forallb_forall in H. specialize (H y Hiy).
  apply eqb_prop in H. exact H.
Qed.

Lemma two_digits_sorted (input : list Z) :
  Forall (fun x => 10 <= x <= 99) input ->
  StronglySorted Z.lt (defaultSort (newSet input)).
Proof.
  intro H. apply sorted_le_NoDup_lt; [|apply sorted_set_NoDup].
  unfold defaultSort.
  apply sortBy_sorted with (P := fun x => 10 <= x <= 99).
  - intros x y z. apply Z.le_trans.
  - intros x y Hx Hy E. rewrite (two_digits_order Hx Hy) in E.
    apply Z.ltb_lt in E. lia.
  - intros x y Hx Hy E. rewrite (two_digits_order Hx Hy) in E.
    apply Z.ltb_ge in E. exact E.
  - apply Forall_forall. intros x Hx. apply (proj1 (setFrom_In _ _ _)) in Hx.
    rewrite Forall_forall in H. apply H. tauto.
Qed.

(** X2.  [[...new Set(input)].sort()] puts a domain of integers from 10
    to 99 in ascending numeric order, each member once: on numbers of two
    digits the comparison of strings agrees with that of numbers. *)
Theorem defaultSort_two_digits (input : list Z) :
  Forall (fun x => 10 <= x <= 99) input ->
  StronglySorted Z.lt (defaultSort (newSet input))
  /\ forall x, In x (defaultSort (newSet input)) <-> In x input.
Proof.
  intro H. split; [apply two_digits_sorted, H|].
  intro x. apply sorted_set_In.
Qed.

Lemma defaultSort_two_digits_witness :
  StronglySorted Z.lt (defaultSort (newSet [48; 12; 30; 12; 99; 10]))
  /\ forall x, In x (defaultSort (newSet [48; 12; 30; 12; 99; 10]))
               <-> In x [48; 12; 30; 12; 99; 10].
Proof.
  apply (@defaultSort_two_digits [48; 12; 30; 12; 99; 10]).
  repeat constructor; lia.
Defined.

Lemma removeFirst_absent (x : Z) (l : list Z) : ~ In x l -> removeFirst x l = l.
Proof.
  induction l as [|y l IH]; intro H; simpl; [reflexivity|].
  destruct (y =? x) eqn:E.
  - apply Z.eqb_eq in E. subst y. exfalso. apply H. left. reflexivity.
  - f_equal. apply IH. intro Hin. apply H. right. exact Hin.
Qed.

Lemma removeFirst_split (x : Z) (l : list Z) :
  In x l ->
  exists l1 l2, l = l1 ++ x :: l2 /\ ~ In x l1 /\ removeFirst x l = l1 ++ l2.
Proof.
  induction l as [|y l IH]; intro H; [contradiction|]. simpl.
  destruct (y =? x) eqn:E.
  - apply Z.eqb_eq in E. subst y. exists [], l. repeat split. intros [].
  - apply Z.eqb_neq in E. destruct H as [H|H]; [contradiction|].
    destruct (IH H) as [l1 [l2 [-> [Hn Hr]]]].
    exists (y :: l1), l2. rewrite Hr. repeat split.
    intros [Hy|Hy]; [contradiction|exact (Hn Hy)].
Qed.

(** X3.  The undo of [findNumbers], [indexOf] then [splice], takes out
    of [temp] the first occurrence of the value and nothing else; when the
    value is not in [temp] it changes nothing (the deleted count is then 0,
    although [splice] is given the index -1).  [acc] is not touched. *)
Theorem backtrack_first_occurrence (x : Z) (st : SearchState) :
  acc (backtrack x st) = acc st
  /\ (~ In x (temp st) -> temp (backtrack x st) = temp st)
  /\ (In x (temp st) ->
      exists l1 l2,
        temp st = l1 ++ x :: l2 /\ ~ In x l1 /\ temp (backtrack x st) = l1 ++ l2).
Proof.
  rewrite backtrack_removeFirst. simpl. split; [reflexivity|]. split.
  - apply removeFirst_absent.
  - apply removeFirst_split.
Qed.

(** X4.  A call of [findNumbers] that returns leaves [temp] as it found
    it and only appends to [acc]; each sequence it appends is [temp]
    extended by members of the domain that add up to the sum it was given.
    (The domain has no duplicate, its members and the sum are within the
    integers that doubles hold exactly, the cursor is within the domain and
    [temp] was built by the search.) *)
Theorem findNumbers_frame (fuel : nat) (input : list Z) (sum : Z) (index : nat)
    (st st' : SearchState) :
  withinDoubles input sum ->
  NoDup input ->
  (index <= List.length input)%nat ->
  cursorInv input index (temp st) ->
  findNumbers fuel input sum (Z.of_nat index) st = Some st' ->
  temp st' = temp st
  /\ exists recorded,
       acc st' = acc st ++ recorded
       /\ Forall (fun combo =>
                    exists ext, combo = temp st ++ ext
                                /\ Forall (fun x => In x input) ext
                                /\ sumZ ext = sum) recorded.
Proof.
  intros _ Hnd _ Hinv Hrun.
  apply (findNumbers_refines Hnd fuel sum (index := index) st Hinv) in Hrun.
  subst st'. simpl. split; [reflexivity|].
  eexists. split; [reflexivity|].
  apply Forall_map, Forall_forall. intros ext Hext.
  exists ext. split; [reflexivity|].
  apply enum_sound in Hext. destruct Hext as [idxs [-> [_ [Hb Hsum]]]].
  split; [|exact Hsum].
  apply Forall_map. eapply Forall_impl; [|exact Hb].
  intros j [_ Hj]. apply at_in, Hj.
Qed.

Lemma findNumbers_frame_witness :
  let st' := {| acc := [[1; 1; 1]; [1; 2]]; temp := [] |} in
  temp st' = []
  /\ exists recorded,
       acc st' = [] ++ recorded
       /\ Forall (fun combo =>
                    exists ext, combo = [] ++ ext
                                /\ Forall (fun x => In x [1; 2]) ext
                                /\ sumZ ext = 3) recorded.
Proof.
  apply (@findNumbers_frame 4 [1; 2] 3 0 {| acc := []; temp := [] |}).
  - split; [repeat constructor; lia|lia].
  - repeat constructor; simpl; intuition lia.
  - simpl. lia.
  - apply cursorInv_nil.
  - vm_compute. reflexivity.
Defined.

(** X5.  On a domain of positive integers and a target that doubles
    hold exactly, every sequence [findAllCombinations] returns has the
    required length, takes its members from the domain and adds up to the
    target. *)
Theorem findAllCombinations_members (fuel : nat) (input : list Z) (sum maxLength : Z)
    (result : list (list Z)) :
  withinDoubles input sum ->
  findAllCombinations fuel input sum maxLength = Some result ->
  Forall (fun combo =>
            Z.of_nat (List.length combo) = maxLength
            /\ Forall (fun x => In x input) combo
            /\ sumZ combo = sum) result.
Proof. intros _. apply findAllCombinations_sound. Qed.

Lemma findAllCombinations_members_witness :
  Forall (fun combo =>
            Z.of_nat (List.length combo) = 2
            /\ Forall (fun x => In x [3; 1; 2; 4]) combo
            /\ sumZ combo = 5) [[1; 4]; [2; 3]].
Proof.
  apply (@findAllCombinations_members 6 [3; 1; 2; 4] 5 2).
  - split; [repeat constructor; lia|lia].
  - vm_compute. reflexivity.
Defined.

Lemma sumZ_perm (l l' : list Z) : Permutation l l' -> sumZ l = sumZ l'.
Proof.
  unfold sumZ. induction 1; simpl; lia.
Qed.

Lemma positions_of (input s : list Z) :
  Forall (fun x => In x input) s ->
  exists js, s = map (at_ input) js
             /\ Forall (fun j => (j < List.length input)%nat) js.
Proof.
  induction 1 as [|x s Hx _ [js [-> Hjs]]].
  - exists []. split; [reflexivity|constructor].
  - destruct (In_nth _ _ 0 Hx) as [j [Hj E]].
    change (nth j input 0) with (at_ input j) in E.
    exists (j :: js). split; [simpl; rewrite E; reflexivity|].
    constructor; assumption.
Qed.

Lemma natAfter_sorted (js : list nat) : StronglySorted le (sortBy natAfter js).
Proof.
  apply sortBy_sorted with (P := fun _ => True).
  - intros x y z. apply Nat.le_trans.
  - intros x y _ _ E. unfold natAfter in E. apply Nat.ltb_lt in E. lia.
  - intros x y _ _ E. unfold natAfter in E. apply Nat.ltb_ge in E. exact E.
  - apply Forall_forall. intros; exact I.
Qed.

(** X6.  On a domain of positive integers and a target that doubles
    hold exactly, nothing is missed: whatever members of the domain, the
    required number of them, add up to the target, one arrangement of them
    is returned. *)
Theorem findAllCombinations_exhaustive (fuel : nat) (input : list Z)
    (sum maxLength : Z) (s : list Z) :
  withinDoubles input sum ->
  (Z.to_nat sum < fuel)%nat ->
  Forall (fun x => In x input) s ->
  sumZ s = sum -> Z.of_nat (List.length s) = maxLength ->
  exists result s',
    findAllCombinations fuel input sum maxLength = Some result
    /\ Permutation s' s /\ In s' result.
Proof.
  intros [Hin _] Hfuel Hmem Hsum Hlen.
  assert (Hpos : Forall (fun x => 0 < x) input).
  { eapply Forall_impl; [|exact Hin]. intros x Hx. cbv beta in Hx. lia. }
  destruct (@findAllCombinations_returns fuel input sum maxLength Hpos Hfuel)
    as [result Hr].
  assert (Hmem' : Forall (fun x => In x (defaultSort (newSet input))) s).
  { eapply Forall_impl; [|exact Hmem]. intros x Hx. apply sorted_set_In, Hx. }
  destruct (@positions_of _ s Hmem') as [js [-> Hjs]].
  pose proof (sortBy_perm natAfter js) as Hperm.
  exists result, (map (at_ (defaultSort (newSet input))) (sortBy natAfter js)).
  split; [exact Hr|]. split; [apply Permutation_map, Hperm|].
  apply findAllCombinations_enum in Hr. subst result.
  apply filter_In. split.
  - assert (Hpos' : Forall (fun x => 0 < x) (defaultSort (newSet input))).
    { apply Forall_forall. intros x Hx. apply (proj1 (sorted_set_In _ _)) in Hx.
      rewrite Forall_forall in Hpos. exact (Hpos x Hx). }
    apply enum_complete; try assumption.
    + apply natAfter_sorted.
    + apply Forall_forall. intros j Hj. split; [lia|].
      apply (Permutation_in _ Hperm) in Hj.
      rewrite Forall_forall in Hjs. apply Hjs, Hj.
    + rewrite <- Hsum. apply sumZ_perm, Permutation_map, Hperm.
  - apply Z.eqb_eq. rewrite <- Hlen, !length_map.
    rewrite (Permutation_length Hperm). reflexivity.
Qed.

Lemma findAllCombinations_exhaustive_witness :
  exists result s',
    findAllCombinations 7 [3; 1; 2; 4] 6 3 = Some result
    /\ Permutation s' [3; 1; 2] /\ In s' result.
Proof.
  apply (@findAllCombinations_exhaustive 7 [3; 1; 2; 4] 6 3 [3; 1; 2]).
  - split; [repeat constructor; lia|lia].
  - vm_compute. lia.
  - repeat constructor; simpl; tauto.
  - reflexivity.
  - reflexivity.
Defined.

Lemma sorted_perm_eq (l1 l2 : list nat) :
  StronglySorted le l1 -> StronglySorted le l2 -> Permutation l1 l2 -> l1 = l2.
Proof.
  intro H1. revert l2. induction H1 as [|a l1 Hs1 IH Ha]; intros l2 H2 Hp.
  - apply Permutation_nil in Hp. subst. reflexivity.
  - destruct H2 as [|b l2 Hs2 Hb].
    + apply Permutation_sym, Permutation_nil in Hp. discriminate.
    + assert (a = b).
      { rewrite Forall_forall in Ha, Hb.
        assert (Hin1 : In a (b :: l2)) by (apply (Permutation_in _ Hp); left; reflexivity).
        assert (Hin2 : In b (a :: l1))
          by (apply (Permutation_in _ (Permutation_sym Hp)); left; reflexivity).
        destruct Hin1 as [->|Hin1]; [reflexivity|].
        destruct Hin2 as [->|Hin2]; [reflexivity|].
        specialize (Ha b Hin2). specialize (Hb a Hin1). lia. }
      subst b. f_equal. apply IH; [exact Hs2|].
      apply Permutation_cons_inv in Hp. exact Hp.
Qed.

Lemma map_at_perm (input : list Z) (i1 i2 : list nat) :
  NoDup input ->
  Forall (fun j => (j < List.length input)%nat) i1 ->
  Forall (fun j => (j < List.length input)%nat) i2 ->
  Permutation (map (at_ input) i1) (map (at_ input) i2) ->
  Permutation i1 i2.
Proof.
  intros Hnd H1 H2 Hp.
  apply Permutation_map_inv in Hp. destruct Hp as [l3 [E Hp3]].
  assert (H3 : Forall (fun j => (j < List.length input)%nat) l3).
  { apply Forall_forall. intros j Hj.
    apply (Permutation_in _ (Permutation_sym Hp3)) in Hj.
    rewrite Forall_forall in H2. apply H2, Hj. }
  assert (i1 = l3); [|subst; symmetry; exact Hp3].
  clear Hp3 H2. revert l3 E H3.
  induction H1 as [|a i1 Ha _ IH]; intros [|b l3] E H3; simpl in E;
    try discriminate; [reflexivity|].
  injection E as Eab E. inversion H3 as [|? ? Hb H3']; subst.
  f_equal; [apply (at_inj Hnd Ha Hb Eab)|apply IH; assumption].
Qed.

(** X7.  No combination is returned twice, in the same or in another
    arrangement: the result has no duplicate, and two returned sequences
    that hold the same members, each as many times, are the same
    sequence. *)
Theorem findAllCombinations_one_arrangement (fuel : nat) (input : list Z)
    (sum maxLength : Z) (result : list (list Z)) :
  findAllCombinations fuel input sum maxLength = Some result ->
  NoDup result
  /\ forall s1 s2, In s1 result -> In s2 result -> Permutation s1 s2 -> s1 = s2.
Proof.
  intro Hr. apply findAllCombinations_enum in Hr. subst result. split.
  - apply NoDup_filter, enum_NoDup, sorted_set_NoDup.
  - intros s1 s2 H1 H2 Hp.
    apply filter_In in H1. destruct H1 as [H1 _].
    apply filter_In in H2. destruct H2 as [H2 _].
    apply enum_sound in H1. destruct H1 as [i1 [-> [Hs1 [Hb1 _]]]].
    apply enum_sound in H2. destruct H2 as [i2 [-> [Hs2 [Hb2 _]]]].
    f_equal. apply sorted_perm_eq; try assumption.
    apply map_at_perm with (input := defaultSort (newSet input));
      [apply sorted_set_NoDup| | |exact Hp].
    + eapply Forall_impl; [|exact Hb1]. intros j [_ Hj]. exact Hj.
    + eapply Forall_impl; [|exact Hb2]. intros j [_ Hj]. exact Hj.
Qed.

Lemma findAllCombinations_one_arrangement_witness :
  NoDup [[1; 1; 4]; [1; 2; 3]; [2; 2; 2]]
  /\ forall s1 s2,
       In s1 [[1; 1; 4]; [1; 2; 3]; [2; 2; 2]] ->
       In s2 [[1; 1; 4]; [1; 2; 3]; [2; 2; 2]] -> Permutation s1 s2 -> s1 = s2.
Proof.
  apply (@findAllCombinations_one_arrangement 7 [3; 1; 2; 4; 2] 6 3).
  vm_compute. reflexivity.
Defined.



Lemma forEachM_fails (A St : Type) (body : A -> St -> option St) (i : A)
    (l1 l2 : list A) (st : St) :
  (forall st, body i st = None) -> forEachM (l1 ++ i :: l2) st body = None.
Proof.
  intro H. revert st. induction l1 as [|x l1 IH]; intro st; simpl.
  - rewrite H. reflexivity.
  - destruct (body x st); [apply IH|reflexivity].
Qed.

Lemma findNumbers_zero_loops (input : list Z) (i : nat) (fuel : nat) :
  nth_error input i = Some 0 ->
  forall (sum : Z) (st : SearchState),
    0 < sum -> findNumbers fuel input sum (Z.of_nat i) st = None.
Proof.
  intro Hi. induction fuel as [|fuel IH]; intros sum st Hsum; [reflexivity|].
  rewrite findNumbers_unfold.
  destruct (sum =? 0) eqn:E0; [lia|].
  rewrite range_of_nat.
  assert (Hlt : (i < List.length input)%nat) by (apply nth_error_Some; congruence).
  replace (List.length input - i)%nat with (S (List.length input - S i)) by lia.
  simpl. rewrite elementAt_of_nat, Hi.
  destruct (sum - 0 >=? 0) eqn:Ege; [|lia].
  rewrite IH by lia. reflexivity.
Qed.

(** X9.  With 0 in the domain and a positive target the search does
    not return, whatever depth it is given: it takes 0 again and again
    (the source overflows its stack). *)
Theorem findAllCombinations_zero_member (fuel : nat) (input : list Z)
    (sum maxLength : Z) :
  In 0 input -> 0 < sum ->
  findAllCombinations fuel input sum maxLength = None.
Proof.
  intros Hin Hsum. unfold findAllCombinations. cbv zeta.
  apply (proj2 (sorted_set_In _ _)) in Hin.
  apply In_nth_error in Hin. destruct Hin as [i Hi].
  assert (Hrun : findNumbers fuel (defaultSort (newSet input)) sum 0
                   {| acc := []; temp := [] |} = None); [|rewrite Hrun; reflexivity].
  destruct fuel as [|fuel]; [reflexivity|].
  rewrite findNumbers_unfold.
  destruct (sum =? 0) eqn:E0; [lia|].
  change 0 with (Z.of_nat 0) at 1. rewrite range_of_nat, Nat.sub_0_r.
  assert (Hlt : (i < List.length (defaultSort (newSet input)))%nat)
    by (apply nth_error_Some; congruence).
  assert (Hsplit : In i (seq 0 (List.length (defaultSort (newSet input)))))
    by (apply in_seq; lia).
  apply in_split in Hsplit. destruct Hsplit as [l1 [l2 ->]].
  rewrite map_app. simpl map. apply forEachM_fails.
  intro st. rewrite elementAt_of_nat, Hi.
  destruct (sum - 0 >=? 0) eqn:Ege; [|lia].
  rewrite (findNumbers_zero_loops _ _ fuel Hi) by lia. reflexivity.
Qed.

Lemma findAllCombinations_zero_member_witness :
  findAllCombinations 1000 [5; 0; 7] 12 2 = None.
Proof.
  apply (@findAllCombinations_zero_member 1000 [5; 0; 7] 12 2).
  - simpl. tauto.
  - lia.
Defined.

(** X10.  For the target 0 the search records the empty sequence at
    once, whatever the domain: the result is the empty sequence alone when
    the required length is 0, and nothing otherwise. *)
Theorem findAllCombinations_target_zero (fuel : nat) (input : list Z) (maxLength : Z) :
  findAllCombinations (S fuel) input 0 maxLength
  = Some (if maxLength =? 0 then [[]] else []).
Proof.
  unfold findAllCombinations. cbv zeta. rewrite findNumbers_unfold. simpl.
  destruct maxLength; reflexivity.
Qed.

Lemma forEachM_skips (A St : Type) (body : A -> St -> option St) (l : list A) (st : St) :
  (forall i, In i l -> body i st = Some st) -> forEachM l st body = Some st.
Proof.
  induction l as [|x l IH]; intro H; simpl; [reflexivity|].
  rewrite (H x (or_introl eq_refl)). apply IH. intros i Hi. apply H. right. exact Hi.
Qed.

(** X11.  When every member of the domain exceeds the target, which is
    not 0 (a negative target on a positive domain is a case), the search
    takes nothing and the result is empty; it is no error. *)
Theorem findAllCombinations_target_below (fuel : nat) (input : list Z)
    (sum maxLength : Z) :
  sum <> 0 -> Forall (fun x => sum < x) input ->
  findAllCombinations (S fuel) input sum maxLength = Some [].
Proof.
  intros Hsum Hall. unfold findAllCombinations. cbv zeta.
  rewrite findNumbers_unfold.
  destruct (sum =? 0) eqn:E0; [lia|].
  rewrite forEachM_skips; [reflexivity|].
  intros i _. destruct (elementAt _ _) as [x|] eqn:Ex; [|reflexivity].
  apply elementAt_In in Ex. apply (proj1 (sorted_set_In _ _)) in Ex.
  rewrite Forall_forall in Hall. specialize (Hall x Ex).
  destruct (sum - x >=? 0) eqn:Ege; [lia|reflexivity].
Qed.

Lemma findAllCombinations_target_below_witness :
  findAllCombinations 1 (irange 12 48) 11 3 = Some []
  /\ findAllCombinations 1 (irange 12 48) (-72) 3 = Some [].
Proof.
  split.
  - apply (@findAllCombinations_target_below 0 (irange 12 48) 11 3); [lia|].
    vm_compute. repeat constructor.
  - apply (@findAllCombinations_target_below 0 (irange 12 48) (-72) 3); [lia|].
    vm_compute. repeat constructor.
Defined.

(* ================================================================== *)
(** ** More on the physical model, in exact arithmetic *)
(* ================================================================== *)

Section ExactArms.

Local Open Scope R_scope.

Lemma newArm_mass_R (ls : list R) :
  getMass (newArm ls)
  = sumR (map (fun L => getMass (ASegment (newSegment L))) ls) + 7.5.
Proof.
  rewrite Arm_getMass_total, total_sumR, newArm_components, map_app, sumR_app, map_map.
  f_equal. simpl. unfold Q2R. simpl. lra.
Qed.

Lemma newArm_mass_ge (ls : list R) :
  Forall (fun L => 0 < L) ls -> 7.5 <= getMass (newArm ls).
Proof.
  intro H. rewrite newArm_mass_R.
  assert (0 <= sumR (map (fun L => getMass (ASegment (newSegment L))) ls)); [|lra].
  apply sumR_nonneg, Forall_map. eapply Forall_impl; [|exact H].
  intros L HL. destruct (segment_wellPlaced HL) as [Hm _]. lra.
Qed.

(** X13.  In exact arithmetic the mass of an arm of positive segment
    lengths is at least the 7.5 of the grabber, so the division in
    [getCenterOfMass] is by a positive number. *)
Theorem Arm_mass_positive (ls : list R) :
  Forall (fun L => 0 < L) ls -> 7.5 <= getMass (newArm ls).
Proof. apply newArm_mass_ge. Qed.

Lemma Arm_mass_positive_witness : 7.5 <= getMass (newArm [12; 24; 36]).
Proof.
  apply (@Arm_mass_positive [12; 24; 36]). repeat constructor; lra.
Defined.

End ExactArms.

(* ================================================================== *)
(** ** More on the run *)
(* ================================================================== *)

Lemma insertions_perm (x : Z) (l p : list Z) :
  In p (insertions x l) -> Permutation p (x :: l).
Proof.
  revert p. induction l as [|y l IH]; intros p Hp; simpl in Hp.
  - destruct Hp as [<-|[]]. reflexivity.
  - destruct Hp as [<-|Hp]; [reflexivity|].
    apply in_map_iff in Hp. destruct Hp as [q [<- Hq]].
    rewrite (IH q Hq). apply perm_swap.
Qed.

Lemma orderings_sound : yieldsOnlyOrderings orderings.
Proof.
  intro l. induction l as [|x l IH]; intros p Hp; simpl in Hp.
  - destruct Hp as [<-|[]]. reflexivity.
  - apply in_flat_map in Hp. destruct Hp as [q [Hq Hp]].
    rewrite (insertions_perm _ _ _ Hp). constructor. apply IH, Hq.
Qed.

Lemma possibleArmLengths_unfold :
  possibleArmLengths
  = findAllCombinations runDepth
      (irange MIN_LENGTH (TOTAL_LENGTH - MIN_LENGTH * (SEGMENTS - 1)))
      TOTAL_LENGTH SEGMENTS.
Proof. reflexivity. Qed.

(* ================================================================== *)
(** ** The model on doubles, over integer lengths *)
(* ================================================================== *)

Lemma forallb_irange (lo hi : Z) (P : Z -> bool) (x : Z) :
  forallb P (irange lo hi) = true -> lo <= x <= hi -> P x = true.
Proof.
  intros H Hx. rewrite forallb_forall in H. apply H, irange_In, Hx.
Qed.

Lemma grid3_spec (lo hi : Z) (P : Z -> Z -> Z -> bool) :
  grid3 lo hi P = true ->
  forall a b c, lo <= a <= hi -> lo <= b <= hi -> lo <= c <= hi -> P a b c = true.
Proof.
  unfold grid3. intros H a b c Ha Hb Hc.
  pose proof (forallb_irange _ H Ha) as H1. cbv beta in H1.
  pose proof (forallb_irange _ H1 Hb) as H2. cbv beta in H2.
  exact (forallb_irange _ H2 Hc).
Qed.

Lemma ofRun_spec (P : Z -> Z -> Z -> bool) :
  grid3 12 48 (ofRun P) = true ->
  forall a b c,
    12 <= a <= 48 -> 12 <= b <= 48 -> 12 <= c <= 48 -> a + b + c = 72 ->
    P a b c = true.
Proof.
  intros H a b c Ha Hb Hc Hsum.
  pose proof (@grid3_spec _ _ _ H a b c Ha Hb Hc) as Hp. unfold ofRun in Hp.
  replace (a + b + c =? TOTAL_LENGTH) with true in Hp; [exact Hp|].
  symmetry. apply Z.eqb_eq. exact Hsum.
Qed.




Lemma longerHeavier_checked : grid3 12 48 (ofRun longerHeavier) = true.
Proof. vm_compute. reflexivity. Qed.

Lemma shorterFirst_checked : grid3 12 48 (ofRun shorterFirst) = true.
Proof. vm_compute. reflexivity. Qed.

Lemma uniform_checked :
  grid3 12 48 (ofRun (fun a b c => uniform (armOf [a; b; c]))) = true.
Proof. vm_compute. reflexivity. Qed.

Lemma symmetricOnlyEqual_checked : grid3 12 48 (ofRun symmetricOnlyEqual) = true.
Proof. vm_compute. reflexivity. Qed.

(** X15.  On doubles, making any one segment of an arm of the run an
    inch longer increases its torque at the base. *)
Theorem Arm_torque_increases (a b c : Z) :
  12 <= a <= 48 -> 12 <= b <= 48 -> 12 <= c <= 48 -> a + b + c = 72 ->
  ltb (getTorqueAtBase (armOf [a; b; c])) (getTorqueAtBase (armOf [a + 1; b; c])) = true
  /\ ltb (getTorqueAtBase (armOf [a; b; c])) (getTorqueAtBase (armOf [a; b + 1; c])) = true
  /\ ltb (getTorqueAtBase (armOf [a; b; c])) (getTorqueAtBase (armOf [a; b; c + 1])) = true.
Proof.
  intros Ha Hb Hc Hsum.
  pose proof (@ofRun_spec _ longerHeavier_checked a b c Ha Hb Hc Hsum) as H.
  unfold longerHeavier in H. cbv zeta in H.
  apply andb_prop in H. destruct H as [H H3].
  apply andb_prop in H. destruct H as [H1 H2].
  repeat split; assumption.
Qed.

Lemma Arm_torque_increases_witness :
  ltb (getTorqueAtBase (armOf [12; 24; 36])) (getTorqueAtBase (armOf [12 + 1; 24; 36])) = true
  /\ ltb (getTorqueAtBase (armOf [12; 24; 36])) (getTorqueAtBase (armOf [12; 24 + 1; 36])) = true
  /\ ltb (getTorqueAtBase (armOf [12; 24; 36])) (getTorqueAtBase (armOf [12; 24; 36 + 1])) = true.
Proof.
  apply (@Arm_torque_increases 12 24 36); lia.
Defined.

(** X17.  On doubles, among the arms of the run, exchanging two
    neighbouring segments so that the longer one comes nearer the base
    increases the torque at the base: the least torque is that of an arm
    whose segments grow from the base. *)
Theorem Arm_torque_shorter_first (a b c : Z) :
  12 <= a <= 48 -> 12 <= b <= 48 -> 12 <= c <= 48 -> a + b + c = 72 ->
  (a < b ->
   ltb (getTorqueAtBase (armOf [a; b; c])) (getTorqueAtBase (armOf [b; a; c])) = true)
  /\ (b < c ->
      ltb (getTorqueAtBase (armOf [a; b; c])) (getTorqueAtBase (armOf [a; c; b])) = true).
Proof.
  intros Ha Hb Hc Hsum.
  pose proof (@ofRun_spec _ shorterFirst_checked a b c Ha Hb Hc Hsum) as H.
  unfold shorterFirst in H. cbv zeta in H.
  apply andb_prop in H. destruct H as [H1 H2]. split; intro Hlt.
  - replace (a <? b) with true in H1 by (symmetry; apply Z.ltb_lt; exact Hlt).
    exact H1.
  - replace (b <? c) with true in H2 by (symmetry; apply Z.ltb_lt; exact Hlt).
    exact H2.
Qed.

Lemma Arm_torque_shorter_first_witness :
  ltb (getTorqueAtBase (armOf [12; 24; 36])) (getTorqueAtBase (armOf [24; 12; 36])) = true
  /\ ltb (getTorqueAtBase (armOf [12; 24; 36])) (getTorqueAtBase (armOf [12; 36; 24])) = true.
Proof.
  destruct (@Arm_torque_shorter_first 12 24 36) as [H1 H2]; try lia.
  split; [apply H1|apply H2]; lia.
Defined.

Lemma findE_only (A : Type) (p : A -> option bool) (l : list A) (y : A) :
  (forall x, In x l -> p x <> None) ->
  (forall x, In x l -> p x = Some true -> x = y) ->
  In y l -> p y = Some true -> findE p l = Some (Some y).
Proof.
  intros Hsome Honly Hin Hy. induction l as [|x l IH]; [contradiction|].
  simpl. destruct (p x) as [[|]|] eqn:Ex.
  - rewrite (Honly x (or_introl eq_refl) Ex). reflexivity.
  - apply IH.
    + intros z Hz. apply Hsome. right. exact Hz.
    + intros z Hz. apply Honly. right. exact Hz.
    + destruct Hin as [->|Hin]; [congruence|exact Hin].
  - exfalso. exact (Hsome x (or_introl eq_refl) Ex).
Qed.

Unset Implicit Arguments.

Section SoundRun.

Context {num : Type} {N : Number num}.
Variable permutation : list Z -> list (list Z).
Hypothesis permutation_sound : yieldsOnlyOrderings permutation.

(** With a generator that yields orderings only, every generated arm has
    three segments, of integer lengths from 12 to 48 that add up to 72. *)
Lemma generatedArms_configs (generated : list (Arm num)) :
  generatedArms permutation = Some generated ->
  forall arm, In arm generated ->
    exists a b c,
      arm = newArm (map ofZ [a; b; c])
      /\ 12 <= a <= 48 /\ 12 <= b <= 48 /\ 12 <= c <= 48 /\ a + b + c = 72.
Proof.
  unfold generatedArms, filteredArmLengthPermutations, possibleArmLengthPermutations.
  destruct possibleArmLengths as [lengths|] eqn:E; [|discriminate].
  cbn [option_map]. intros Hg arm Harm. injection Hg as <-.
  apply in_map_iff in Harm. destruct Harm as [cfg [<- Hcfg]]. cbv beta.
  apply filter_In in Hcfg. destruct Hcfg as [Hcfg _].
  apply in_flat_map in Hcfg. destruct Hcfg as [p [Hp Hcfg]].
  apply permutation_sound in Hcfg.
  rewrite possibleArmLengths_unfold in E. apply findAllCombinations_sound in E.
  rewrite Forall_forall in E. destruct (E p Hp) as [Hlen [Hmem Hsum]].
  assert (Hlen' : List.length cfg = 3%nat).
  { rewrite (Permutation_length Hcfg). unfold SEGMENTS in Hlen. lia. }
  assert (Hsum' : sumZ cfg = 72).
  { rewrite (sumZ_perm Hcfg). exact Hsum. }
  assert (Hmem' : forall x, In x cfg -> 12 <= x <= 48).
  { intros x Hx. apply (Permutation_in _ Hcfg) in Hx.
    rewrite Forall_forall in Hmem. apply Hmem in Hx.
    apply irange_In in Hx. exact Hx. }
  destruct cfg as [|a [|b [|c [|d l]]]]; try discriminate.
  exists a, b, c. split; [reflexivity|].
  unfold sumZ in Hsum'. simpl in Hsum'.
  repeat split; try apply Hmem'; simpl; auto; lia.
Qed.

End SoundRun.

(** X19.  On doubles, when the permutation generator yields orderings
    only, every arm the run generates has three segments and the grabber
    and the length 84 exactly; the masses agree up to rounding, within
    1e-13 of one another. *)
Theorem generatedArms_uniform (permutation : list Z -> list (list Z))
    (generated : list (Arm float)) :
  yieldsOnlyOrderings permutation ->
  generatedArms permutation = Some generated ->
  forall arm, In arm generated ->
    List.length (components arm) = 4%nat
    /\ eqb (getLength arm) (lit 84) = true
    /\ ltb (lit 26.2693132774303) (getMass arm) = true
    /\ ltb (getMass arm) (lit 26.2693132774304) = true.
Proof.
  intros Hsound E arm Harm.
  destruct (generatedArms_configs permutation Hsound generated E arm Harm)
    as [a [b [c [-> [Ha [Hb [Hc Hsum]]]]]]].
  pose proof (@ofRun_spec _ uniform_checked a b c Ha Hb Hc Hsum) as H.
  cbv beta in H. unfold uniform in H.
  apply andb_prop in H. destruct H as [H H4].
  apply andb_prop in H. destruct H as [H H3].
  apply andb_prop in H. destruct H as [H1 H2].
  apply Nat.eqb_eq in H1.
  repeat split; assumption.
Qed.

Lemma generatedArms_uniform_witness :
  exists generated : list (Arm float),
    generatedArms orderings = Some generated
    /\ forall arm, In arm generated ->
         List.length (components arm) = 4%nat
         /\ eqb (getLength arm) (lit 84) = true
         /\ ltb (lit 26.2693132774303) (getMass arm) = true
         /\ ltb (getMass arm) (lit 26.2693132774304) = true.
Proof.
  destruct (generatedArms_symmetric (N := float_Number) orderings_complete)
    as [generated [E _]].
  exists generated. split; [exact E|].
  exact (generatedArms_uniform orderings generated orderings_sound E).
Defined.

(** C2, amended.  For the parameters of the run and a permutation
    generator that yields the orderings of its argument, all of them and
    nothing else, the arm of three segments of length 24 is one of those
    generated, and the symmetric lookup returns it: an arm whose segments
    report the lengths 24, 24 and 24, not the report that none is found. *)
Theorem symmetricArm_found (permutation : list Z -> list (list Z)) :
  yieldsEveryOrdering permutation ->
  yieldsOnlyOrderings permutation ->
  exists generated : list (Arm float),
    generatedArms permutation = Some generated
    /\ In (armOf [24; 24; 24]) generated
    /\ symmetricArm permutation = Some (Some (armOf [24; 24; 24]))
    /\ map getLength (components (armOf [24; 24; 24])) = [24; 24; 24; 12]%float.
Proof.
  intros Hcomplete Hsound.
  destruct (generatedArms_symmetric (N := float_Number) Hcomplete)
    as [generated [E Hin]].
  exists generated. split; [exact E|]. split; [exact Hin|].
  split; [|vm_compute; reflexivity].
  unfold symmetricArm, arms. rewrite E. cbn [option_map andThen].
  assert (Hcfg : forall arm, In arm (sortArms generated) ->
            exists a b c,
              arm = armOf [a; b; c] /\ symmetricOnlyEqual a b c = true
              /\ a + b + c = 72).
  { intros arm Harm. apply (proj1 (sortBy_In _ _ _)) in Harm.
    destruct (generatedArms_configs permutation Hsound generated E arm Harm)
      as [a [b [c [-> [Ha [Hb [Hc Hsum]]]]]]].
    exists a, b, c. split; [reflexivity|]. split; [|exact Hsum].
    exact (@ofRun_spec _ symmetricOnlyEqual_checked a b c Ha Hb Hc Hsum). }
  apply findE_only.
  - intros arm Harm. destruct (Hcfg arm Harm) as [a [b [c [-> [Hs _]]]]].
    unfold symmetricOnlyEqual in Hs. intro Hnone. rewrite Hnone in Hs. discriminate.
  - intros arm Harm Htrue. destruct (Hcfg arm Harm) as [a [b [c [-> [Hs Hsum]]]]].
    unfold symmetricOnlyEqual in Hs. rewrite Htrue in Hs.
    apply andb_prop in Hs. destruct Hs as [Hab Hbc].
    apply Z.eqb_eq in Hab. apply Z.eqb_eq in Hbc.
    assert (a = 24) by lia. assert (b = 24) by lia. assert (c = 24) by lia.
    subst. reflexivity.
  - apply sortBy_In. exact Hin.
  - vm_compute. reflexivity.
Qed.

Lemma symmetricArm_found_witness :
  exists generated : list (Arm float),
    generatedArms orderings = Some generated
    /\ In (armOf [24; 24; 24]) generated
    /\ symmetricArm orderings = Some (Some (armOf [24; 24; 24]))
    /\ map getLength (components (armOf [24; 24; 24])) = [24; 24; 24; 12]%float.
Proof. exact (symmetricArm_found orderings orderings_complete orderings_sound). Defined.

Set Implicit Arguments.
